(** * awsio.python.lib.io.s3.s3dataset: a shallow embedding

    The module [s3dataset.py] resolves S3 locations into a key list,
    shards the key list over distributed ranks and data-loader workers,
    demultiplexes tar and zip objects into records, and offers a
    bounded-buffer shuffle over any record stream.

    Python generators are embedded as the list of values they yield
    together with the way they end; exceptions are an explicit sum type;
    the process-global [random] state is threaded explicitly. *)

From Stdlib Require Import ZArith Ascii String.
From stdpp Require Import base tactics option numbers list.

Local Open Scope nat_scope.

(** ** Exceptions and results *)

(** The exceptions the module can meet.  [AssertionError] carries the
    message of the failed [assert]; [OtherError] stands for anything a
    collaborator (tarfile, zipfile, the S3 handler) raises. *)
Inductive exn : Type :=
  | AssertionError (msg : string)
  | ValueError (msg : string)
  | IndexError (msg : string)
  | OtherError (msg : string).

(** A computation either raises or returns. *)
Definition result (A : Type) : Type := (exn + A)%type.

Definition ret {A} (x : A) : result A := inr x.
Definition raise {A} (e : exn) : result A := inl e.
Definition bind {A B} (m : result A) (k : A -> result B) : result B :=
  match m with
  | inl e => inl e
  | inr x => k x
  end.

Notation "'do' x <~ m ; k" := (bind m (fun x => k))
  (at level 10, x name, m at level 100, k at level 200).

(** ** List slicing [l[start:stop:step]] for non-negative arguments

    CPython clamps [start] and [stop] to the length, computes the
    number of selected positions, and copies position
    [start + j*step] for each [j] below that number.  A zero step is
    a [ValueError]. *)

Definition slice_length (start stop step : nat) : nat :=
  if start <? stop then (stop - start - 1) / step + 1 else 0.

Definition slice_indices (start stop step : nat) : list nat :=
  (fun j => start + j * step) <$> seq 0 (slice_length start stop step).

Definition py_slice {A} (start stop step : nat) (l : list A) : result (list A) :=
  if step =? 0 then raise (ValueError "slice step cannot be zero")
  else
    let n := length l in
    ret (omap (fun i => l !! i) (slice_indices (start `min` n) (stop `min` n) step)).

(** ** S3IterableDataset: the attributes that sharding reads *)

(** [dist] is whether torch.distributed is initialised; [world_size]
    and [rank] are read only when it is. *)
Record S3IterableDataset : Type := mkS3IterableDataset {
  epoch : Z;
  shuffle_urls : bool;
  dist : bool;
  world_size : nat;
  rank : nat;
  urls_list : list string
}.

(** What [torch.utils.data.get_worker_info()] returns: [None] outside a
    worker process, otherwise the worker's id and the worker count. *)
Record WorkerInfo : Type := mkWorkerInfo {
  wi_id : nat;
  wi_num_workers : nat
}.

Definition worker_dist {A} (self : S3IterableDataset)
    (worker_info : option WorkerInfo) (urls : list A) : result (list A) :=
  do urls <~ (if dist self
              then let total_size := length urls in
                   py_slice (rank self) total_size (world_size self) urls
              else ret urls);
  match worker_info with
  | Some wi =>
      let wid := wi_id wi in
      let num_workers := wi_num_workers wi in
      let length := length urls in
      py_slice wid length num_workers urls
  | None => ret urls
  end.

(** The shard of rank [r] of [W] and worker [w] of [N], as [worker_dist]
    computes it. *)
Definition shard_ctx (W r : nat) : S3IterableDataset :=
  {| epoch := 0; shuffle_urls := false; dist := true;
     world_size := W; rank := r; urls_list := [] |}.

Definition shard {A} (W N r w : nat) (urls : list A) : result (list A) :=
  worker_dist (shard_ctx W r) (Some (mkWorkerInfo w N)) urls.

(** The keys of a shard (none if slicing raised). *)
Definition shard_list {A} (W N r w : nat) (urls : list A) : list A :=
  match shard W N r w urls with
  | inr sh => sh
  | inl _ => []
  end.

(** The index set of a shard: what [worker_dist] selects from the list
    of positions [0, 1, ..., n-1]. *)
Definition shard_indices (W N r w n : nat) : list nat :=
  shard_list W N r w (seq 0 n).

(** How many keys rank [r] of [W] gets out of [n], and how many of those
    worker [w] of [N]. *)
Definition rank_count (W r n : nat) : nat := slice_length (r `min` n) n W.
Definition shard_count (W N r w n : nat) : nat :=
  slice_length (w `min` rank_count W r n) (rank_count W r n) N.

(** All rank and worker combinations, rank-major. *)
Definition all_pairs (W N : nat) : list (nat * nat) :=
  r ← seq 0 W; (fun w => (r, w)) <$> seq 0 N.

(** ** Strings, the way the module uses them *)

Definition bytes : Type := list Byte.byte.

(** A record of the stream: a name and a payload. *)
Definition record : Type := (string * bytes)%type.

(** [s[-3:]]: the last three characters, or all of [s] when it is
    shorter. *)
Definition last3 (s : string) : string :=
  substring (String.length s - 3) 3 s.

Definition startswith (s p : string) : bool := String.prefix p s.

Definition endswith (s suf : string) : bool :=
  (String.length suf <=? String.length s) &&
  String.eqb (substring (String.length s - String.length suf) (String.length suf) s) suf.

(** [c in s] for a one-character [c]. *)
Fixpoint str_in (c : ascii) (s : string) : bool :=
  match s with
  | EmptyString => false
  | String d s' => Ascii.eqb c d || str_in c s'
  end.

Definition meta_prefix : string := "__".
Definition meta_suffix : string := "__".

(** ** The fragment of [re] that [skip_meta] is written in *)

Inductive regex : Type :=
  | Lit (c : ascii)              (* the character c *)
  | NotLit (c : ascii)           (* [^c] *)
  | Dollar                       (* $ *)
  | Cat (r1 r2 : regex)
  | Alt (r1 r2 : regex)
  | Star (r : regex).

(** Backtracking matcher: [rmatch r s k] holds when [r] matches a prefix
    of [s] and [k] accepts what is left.  [$] (without MULTILINE)
    matches at the end of the string and just before a newline that
    ends the string.  An iteration of [Star] must consume input. *)
Fixpoint rmatch (r : regex) (s : list ascii) (k : list ascii -> bool) : bool :=
  match r with
  | Lit c => match s with
             | a :: s' => Ascii.eqb a c && k s'
             | [] => false
             end
  | NotLit c => match s with
                | a :: s' => negb (Ascii.eqb a c) && k s'
                | [] => false
                end
  | Dollar => match s with
              | [] => k s
              | [a] => Ascii.eqb a "010"%char && k s
              | _ => false
              end
  | Cat r1 r2 => rmatch r1 s (fun s' => rmatch r2 s' k)
  | Alt r1 r2 => rmatch r1 s k || rmatch r2 s k
  | Star r' =>
      (fix star (fuel : nat) (s : list ascii) {struct fuel} : bool :=
         k s ||
         match fuel with
         | 0 => false
         | S fuel' =>
             rmatch r' s (fun s' => (length s' <? length s) && star fuel' s')
         end) (length s) s
  end.

(** [re.match(r, s)] as a truth value: a match anchored at the start. *)
Definition re_match (r : regex) (s : string) : bool :=
  rmatch r (list_ascii_of_string s) (fun _ => true).

(** [r"__[^/]*__($|/)"] *)
Definition default_skip_meta : regex :=
  Cat (Lit "_") (Cat (Lit "_") (Cat (Star (NotLit "/"))
    (Cat (Lit "_") (Cat (Lit "_") (Alt Dollar (Lit "/")))))).

(** ** Generators *)

(** A generator run to its end: what it yielded, and the exception that
    ended it, if one did. *)
Definition gen (A : Type) : Type := (list A * option exn)%type.

Definition gen_nil {A} : gen A := ([], None).
Definition gen_raise {A} (e : exn) : gen A := ([], Some e).
Definition gen_yield {A} (x : A) (g : gen A) : gen A := (x :: g.1, g.2).

(** ** tardata *)

(** A member of a tar stream as [tardata] sees it. *)
Record TarInfo : Type := mkTarInfo {
  isreg : bool;
  name : option string;
  extractfile_read : result bytes      (* stream.extractfile(tarinfo).read() *)
}.

(** Iterating a tar stream gives a member, ends, or raises. *)
Inductive tar_stream : Type :=
  | TarEnd
  | TarFail (e : exn)
  | TarMember (tarinfo : TarInfo) (rest : tar_stream).

(** [tarfile.open(fileobj=io.BytesIO(b), mode="r|*")] *)
Class TarFile : Type := {
  tarfile_open : bytes -> tar_stream
}.

(** [zipfile.ZipFile(io.BytesIO(b), 'r')]: opening may raise; otherwise
    the names of [namelist()] in order, each with what [read] gives. *)
Class ZipFile : Type := {
  zipfile_open : bytes -> result (list (string * result bytes))
}.

Definition reraise_exception (e : exn) : result bool := raise e.

(** What the body of the inner [try] does with one member. *)
Inductive member_step : Type :=
  | Skip
  | Yield (fname : string) (data : bytes)
  | Raises (e : exn).

Definition tardata_member (skip_meta : option regex) (tarinfo : TarInfo) : member_step :=
  if negb (isreg tarinfo) then Skip
  else
    match name tarinfo with
    | None => Skip
    | Some fname =>
        if negb (str_in "/" fname) && startswith fname meta_prefix
           && endswith fname meta_suffix
        then Skip
        else if match skip_meta with
                | Some r => re_match r fname
                | None => false
                end
        then Skip
        else match extractfile_read tarinfo with
             | inr data => Yield fname data
             | inl e => Raises e
             end
    end.

(** The outer [except]: the handler is called and its answer dropped;
    what it raises leaves the generator. *)
Definition tardata_outer (handler : exn -> result bool) (e : exn) : gen record :=
  match handler e with
  | inl e' => gen_raise e'
  | inr _ => gen_nil
  end.

Fixpoint tardata_loop (skip_meta : option regex) (handler : exn -> result bool)
    (stream : tar_stream) : gen record :=
  match stream with
  | TarEnd => gen_nil
  | TarFail e => tardata_outer handler e
  | TarMember tarinfo rest =>
      match tardata_member skip_meta tarinfo with
      | Skip => tardata_loop skip_meta handler rest
      | Yield fname data => gen_yield (fname, data) (tardata_loop skip_meta handler rest)
      | Raises e =>
          match handler e with
          | inr true => tardata_loop skip_meta handler rest
          | inr false => gen_nil
          | inl e' => tardata_outer handler e'
          end
      end
  end.

Definition tardata `{TarFile} (fileobj : bytes) (skip_meta : option regex)
    (handler : exn -> result bool) : gen record :=
  tardata_loop skip_meta handler (tarfile_open fileobj).

(** ** zipdata *)

(** The loop over [namelist()]: a failing [read] is printed and ends the
    loop. *)
Fixpoint zipdata_loop (entries : list (string * result bytes)) : list record :=
  match entries with
  | [] => []
  | (file_, inr data) :: rest => (file_, data) :: zipdata_loop rest
  | (_, inl _) :: _ => []
  end.

Definition zipdata `{ZipFile} (fileobj : bytes) : gen record :=
  match zipfile_open fileobj with
  | inl _ => gen_nil
  | inr entries => (zipdata_loop entries, None)
  end.

(** ** The S3 handler [_pywrap_s3_io.S3Init()] *)

Record S3Init : Type := mkS3Init {
  file_exists : string -> bool;
  get_file_size : string -> Z;
  list_files : string -> list string;
  s3_read : string -> bytes
}.

(** ** S3BaseClass *)

(** The loop of [create_urls_list], with its accumulator [urls_list]. *)
Fixpoint create_urls_list_loop (handler : S3Init) (urls urls_list : list string)
    : result (list string) :=
  match urls with
  | [] => ret urls_list
  | url :: urls' =>
      if negb (file_exists handler url) then
        let url_objects := list_files handler url in
        if negb (length url_objects =? 0)
        then create_urls_list_loop handler urls' (urls_list ++ url_objects)
        else raise (AssertionError
                      ("The directory " ++ url ++ " does not contain any objects.")%string)
      else
        match urls_list with
        | _ :: _ => create_urls_list_loop handler urls' (urls_list ++ [url])
        | [] => create_urls_list_loop handler urls' [url]
        end
  end.

Definition create_urls_list (handler : S3Init) (urls : list string)
    : result (list string) :=
  create_urls_list_loop handler urls [].

(** The constructor argument: one string or a list of strings. *)
Inductive urls_arg : Type :=
  | OneUrl (url : string)
  | Urls (urls : list string).

Definition S3BaseClass_init (handler : S3Init) (urls_list : urls_arg)
    : result (list string) :=
  let urls := match urls_list with
              | OneUrl url => [url]
              | Urls urls => urls
              end in
  create_urls_list handler urls.

(** ** S3IterableDataset *)

(** [dist_ctx] is the state of torch.distributed at construction:
    [Some (world_size, rank)] when it is available and initialised. *)
Definition S3IterableDataset_init (handler : S3Init) (dist_ctx : option (nat * nat))
    (urls_list : urls_arg) (shuffle_urls : bool) : result S3IterableDataset :=
  let self_dist := match dist_ctx with Some _ => true | None => false end in
  let self_world_size := match dist_ctx with Some (ws, _) => ws | None => 0 end in
  let self_rank := match dist_ctx with Some (_, rk) => rk | None => 0 end in
  do urls <~ S3BaseClass_init handler urls_list;
  ret {| epoch := 0; shuffle_urls := shuffle_urls; dist := self_dist;
         world_size := self_world_size; rank := self_rank; urls_list := urls |}.

Definition set_epoch (self : S3IterableDataset) (e : Z) : S3IterableDataset :=
  {| epoch := e; shuffle_urls := shuffle_urls self; dist := dist self;
     world_size := world_size self; rank := rank self;
     urls_list := urls_list self |}.

(** [__len__] *)
Definition S3IterableDataset_len (self : S3IterableDataset) : nat :=
  length (urls_list self).

(** ** The [random] module

    Its generator is process-global state, threaded here as [G].
    [seed e] is the state [random.seed(e)] leaves, whatever the state
    was before; [randint] and [sample] read and advance the state. *)
Class PyRandom (G : Type) : Type := {
  seed : Z -> G;
  randint : G -> Z -> Z -> Z * G;
  sample : forall {A : Type}, G -> list A -> nat -> list A * G
}.

(** [random.randint(a, b)] raises on an empty range. *)
Definition py_randint `{PyRandom G} (g : G) (a b : Z) : result (Z * G) :=
  if (a <=? b)%Z then ret (randint g a b)
  else raise (ValueError "empty range for randrange()").
Arguments py_randint : simpl never.

(** The property [shuffled_list]: the list and the generator state left
    behind. *)
Definition shuffled_list `{PyRandom G} (self : S3IterableDataset) (g : G)
    : list string * G :=
  if shuffle_urls self then
    let g := seed (epoch self) in
    sample g (urls_list self) (length (urls_list self))
  else (urls_list self, g).

Definition download_data `{TarFile} `{ZipFile} (handler : S3Init) (filename : string)
    : gen record :=
  if String.eqb (last3 filename) "tar" then
    tardata (s3_read handler filename) (Some default_skip_meta) reraise_exception
  else if String.eqb (last3 filename) "zip" then
    zipdata (s3_read handler filename)
  else
    gen_yield (filename, s3_read handler filename) gen_nil.

(** [chain.from_iterable(map(self.download_data, urls_list))] *)
Fixpoint get_stream `{TarFile} `{ZipFile} (handler : S3Init) (urls_list : list string)
    : gen record :=
  match urls_list with
  | [] => gen_nil
  | url :: rest =>
      match download_data handler url with
      | (ys, Some e) => (ys, Some e)
      | (ys, None) =>
          let '(zs, r) := get_stream handler rest in (ys ++ zs, r)
      end
  end.

(** [__iter__], run to its end. *)
Definition S3IterableDataset_iter `{TarFile} `{ZipFile} `{PyRandom G}
    (handler : S3Init) (self : S3IterableDataset)
    (worker_info : option WorkerInfo) (g : G) : result (gen record) * G :=
  let '(l, g) := shuffled_list self g in
  (do urls <~ worker_dist self worker_info l;
   ret (get_stream handler urls), g).

(** ** ShuffleDataset *)

Record ShuffleDataset (A : Type) : Type := mkShuffleDataset {
  dataset : list A;         (* what iterating the wrapped dataset gives *)
  buffer_size : Z
}.
Arguments mkShuffleDataset {A} _ _.
Arguments dataset {A} _.
Arguments buffer_size {A} _.

(** [l.pop(i)] *)
Definition py_pop {A} (l : list A) (i : Z) : result (A * list A) :=
  let n := Z.of_nat (length l) in
  let i := if (i <? 0)%Z then (i + n)%Z else i in
  if ((i <? 0) || (n <=? i))%Z then raise (IndexError "pop index out of range")
  else
    match l !! Z.to_nat i with
    | Some x => ret (x, take (Z.to_nat i) l ++ drop (S (Z.to_nat i)) l)
    | None => raise (IndexError "pop index out of range")
    end.

(** The initial fill: [n] rounds of [shufbuf.append(next(dataset_iter))];
    the flag tells whether [StopIteration] ended it. *)
Fixpoint fill {A} (n : nat) (shufbuf dataset_iter : list A)
    : list A * list A * bool :=
  match n with
  | 0 => (shufbuf, dataset_iter, false)
  | S n' =>
      match dataset_iter with
      | [] => (shufbuf, dataset_iter, true)
      | x :: dataset_iter' => fill n' (shufbuf ++ [x]) dataset_iter'
      end
  end.

(** What a loop of the generator leaves: the values yielded, the buffer,
    the generator state of [random], and the exception, if any. *)
Record loop_end (A G : Type) : Type := mkLoopEnd {
  yielded : list A;
  shufbuf_end : list A;
  rng_end : G;
  raised : option exn
}.
Arguments mkLoopEnd {A G} _ _ _ _.
Arguments yielded {A G} _.
Arguments shufbuf_end {A G} _.
Arguments rng_end {A G} _.
Arguments raised {A G} _.

Definition loop_yield {A G} (x : A) (r : loop_end A G) : loop_end A G :=
  mkLoopEnd (x :: yielded r) (shufbuf_end r) (rng_end r) (raised r).

(** The [while True] loop: one round per item pulled from the source. *)
Fixpoint evict_loop {A} `{PyRandom G} (buffer_size : Z)
    (shufbuf dataset_iter : list A) (g : G) {struct dataset_iter} : loop_end A G :=
  if (buffer_size =? 0)%Z then mkLoopEnd [] shufbuf g None
  else
    match py_randint g 0 (buffer_size - 1) with
    | inl e => mkLoopEnd [] shufbuf g (Some e)
    | inr (evict_idx, g') =>
        match py_pop shufbuf evict_idx with
        | inl e => mkLoopEnd [] shufbuf g' (Some e)
        | inr (x, shufbuf') =>
            loop_yield x
              match dataset_iter with
              | [] => mkLoopEnd [] shufbuf' g' None
              | item :: dataset_iter' =>
                  evict_loop buffer_size (shufbuf' ++ [item]) dataset_iter' g'
              end
        end
    end.

(** The [while len(shufbuf) > 0] loop; [len] is [len(shufbuf)], which
    every round lowers by one. *)
Fixpoint drain_loop {A} `{PyRandom G} (len : nat) (shufbuf : list A) (g : G)
    : loop_end A G :=
  match len with
  | 0 => mkLoopEnd [] shufbuf g None
  | S len' =>
      match py_randint g 0 (Z.of_nat (length shufbuf) - 1) with
      | inl e => mkLoopEnd [] shufbuf g (Some e)
      | inr (evict_idx, g') =>
          match py_pop shufbuf evict_idx with
          | inl e => mkLoopEnd [] shufbuf g' (Some e)
          | inr (x, shufbuf') => loop_yield x (drain_loop len' shufbuf' g')
          end
      end
  end.

(** One full pass of [__iter__]: the instance afterwards (its
    [buffer_size] may have been overwritten) and what the pass did. *)
Definition ShuffleDataset_iter {A} `{PyRandom G} (self : ShuffleDataset A) (g : G)
    : ShuffleDataset A * loop_end A G :=
  let '(shufbuf, dataset_iter, stop) :=
    fill (Z.to_nat (buffer_size self)) [] (dataset self) in
  let self := if stop
              then mkShuffleDataset (dataset self) (Z.of_nat (length shufbuf))
              else self in
  let r1 := evict_loop (buffer_size self) shufbuf dataset_iter g in
  match raised r1 with
  | Some e => (self, r1)
  | None =>
      let r2 := drain_loop (length (shufbuf_end r1)) (shufbuf_end r1) (rng_end r1) in
      (self, mkLoopEnd (yielded r1 ++ yielded r2) (shufbuf_end r2) (rng_end r2) (raised r2))
  end.

(** Several passes over the same instance. *)
Fixpoint iter_passes {A} `{PyRandom G} (k : nat) (self : ShuffleDataset A) (g : G)
    : ShuffleDataset A * G :=
  match k with
  | 0 => (self, g)
  | S k' =>
      let '(self', r) := ShuffleDataset_iter self g in
      iter_passes k' self' (rng_end r)
  end.

(** ** A concrete world to run the definitions in *)

(** A linear congruential generator standing in for [random]:
    [randint] reduces the state into the range, [sample] rotates the
    population by the state. *)
Definition lcg_next (g : Z) : Z := ((1103515245 * g + 12345) mod 2147483648)%Z.

Definition lcg_sample {A} (g : Z) (l : list A) (k : nat) : list A * Z :=
  (take k (rotate (Z.to_nat (g mod 7)) l), lcg_next g).

#[local] Instance lcg_random : PyRandom Z := {|
  seed := fun e => Z.abs e;
  randint := fun g a b => ((a + g mod (b - a + 1))%Z, lcg_next g);
  sample := @lcg_sample
|}.

(** A store with one object [file.bin], one archive [pack.tar], the
    prefix [prefix/] holding [x] and [y], and nothing else. *)
Definition toy_handler : S3Init := {|
  file_exists := fun url =>
    String.eqb url "s3://bucket/file.bin" || String.eqb url "s3://bucket/pack.tar";
  get_file_size := fun _ => 3%Z;
  list_files := fun url =>
    if String.eqb url "s3://bucket/prefix/"
    then ["s3://bucket/prefix/x"; "s3://bucket/prefix/y"]%string
    else [];
  s3_read := fun _ => [Byte.x01; Byte.x02; Byte.x03]
|}.

(** A tar reader that finds the same three regular members in every
    buffer, each holding the buffer itself. *)
Definition toy_members (b : bytes) : tar_stream :=
  TarMember (mkTarInfo true (Some "a.txt"%string) (inr b))
    (TarMember (mkTarInfo true (Some "__meta__"%string) (inr b))
       (TarMember (mkTarInfo true (Some "b/c.txt"%string) (inr b)) TarEnd)).

#[local] Instance toy_tarfile : TarFile := {| tarfile_open := toy_members |}.

#[local] Instance toy_zipfile : ZipFile := {|
  zipfile_open := fun b => inr [("inner.txt"%string, inr b)]
|}.

(** ** The words of the specification, for comparison *)

(** One location resolves to itself when it exists as an object, and to
    its listing otherwise. *)
Definition resolve_location (handler : S3Init) (url : string) : list string :=
  if file_exists handler url then [url] else list_files handler url.

(** A location that neither exists as an object nor lists any key. *)
Definition empty_prefix (handler : S3Init) (url : string) : Prop :=
  file_exists handler url = false /\ list_files handler url = [].

(** ** S3Dataset, the map-style dataset *)






(** ** Helpers to state properties of the archive readers *)

(** A tar stream that gives the members of [l] and goes on as [tail]. *)
Fixpoint members_then (l : list TarInfo) (tail : tar_stream) : tar_stream :=
  match l with
  | [] => tail
  | tarinfo :: l' => TarMember tarinfo (members_then l' tail)
  end.

(** The record a member gives, if it gives one. *)
Definition member_record (skip_meta : option regex) (tarinfo : TarInfo) : option record :=
  match tardata_member skip_meta tarinfo with
  | Yield fname data => Some (fname, data)
  | _ => None
  end.

(** Whether extracting a member raises. *)
Definition member_raises (skip_meta : option regex) (tarinfo : TarInfo) : bool :=
  match tardata_member skip_meta tarinfo with
  | Raises _ => true
  | _ => false
  end.

(** A bare name bracketed by the meta markers. *)
Definition bare_meta (fname : string) : bool :=
  negb (str_in "/" fname) && startswith fname meta_prefix && endswith fname meta_suffix.

(** The record of a key that is not an archive. *)
Definition plain_record (handler : S3Init) (url : string) : record :=
  (url, s3_read handler url).

(** Whether [download_data] treats a name as an archive. *)
Definition is_archive (filename : string) : bool :=
  String.eqb (last3 filename) "tar" || String.eqb (last3 filename) "zip".

(** The members a tar stream gives before it ends or raises. *)
Fixpoint stream_members (stream : tar_stream) : list TarInfo :=
  match stream with
  | TarMember tarinfo rest => tarinfo :: stream_members rest
  | _ => []
  end.

(** A zip entry whose [read] succeeds. *)
Definition zip_ok (r : record) : string * result bytes := (r.1, inr r.2).

(** A regular member whose extraction raises, and a tar reader that
    finds it between two good members. *)
Definition bad_member : TarInfo :=
  mkTarInfo true (Some "bad.bin"%string) (inl (OtherError "unexpected end of data")).

Definition good_member (fname : string) (data : bytes) : TarInfo :=
  mkTarInfo true (Some fname) (inr data).

Definition broken_tarfile : TarFile := {|
  tarfile_open := fun b =>
    members_then [good_member "a.txt" b; bad_member; good_member "c.txt" b] TarEnd
|}.

(** Zero or more characters other than [c], then [k]: what
    [Star (NotLit c)] comes to, by recursion on the input. *)
Fixpoint star_class (c : ascii) (k : list ascii -> bool) (s : list ascii) : bool :=
  k s ||
  match s with
  | a :: s' => negb (Ascii.eqb a c) && star_class c k s'
  | [] => false
  end.

(** * Properties *)

(** ** Slicing *)

Section slicing.
Implicit Types start stop step i j : nat.

(** Position [j] of a slice exists exactly when [start + j*step] is
    below [stop]. *)
Lemma slice_length_lt start stop step j :
  0 < step ->
  j < slice_length start stop step <-> start + j * step < stop.
Proof.
  intros Hs. unfold slice_length.
  destruct (Nat.ltb_spec start stop) as [Hlt|Hge]; [|nia].
  split; intros Hj.
  - assert (j <= (stop - start - 1) / step) as Hq by lia.
    assert (step * ((stop - start - 1) / step) <= stop - start - 1)
      by (apply Nat.Div0.mul_div_le).
    nia.
  - assert (j <= (stop - start - 1) / step); [|lia].
    apply Nat.div_le_lower_bound; lia.
Qed.

Lemma slice_length_min_lt start stop step j :
  0 < step ->
  j < slice_length (start `min` stop) stop step <-> start + j * step < stop.
Proof.
  intros Hs. rewrite slice_length_lt by done.
  destruct (Nat.le_ge_cases start stop) as [H|H].
  - by rewrite Nat.min_l.
  - rewrite Nat.min_r by done. nia.
Qed.

Lemma elem_of_slice_indices start stop step i :
  i ∈ slice_indices start stop step <->
  exists j, j < slice_length start stop step /\ i = start + j * step.
Proof.
  unfold slice_indices. rewrite list_elem_of_fmap.
  setoid_rewrite elem_of_seq. split; intros (j & ? & ?); exists j; split; (done || lia).
Qed.

Lemma length_slice_indices start stop step :
  length (slice_indices start stop step) = slice_length start stop step.
Proof. unfold slice_indices. by rewrite length_fmap, length_seq. Qed.

Lemma lookup_slice_indices start stop step j :
  j < slice_length start stop step ->
  slice_indices start stop step !! j = Some (start + j * step).
Proof.
  intros Hj. unfold slice_indices.
  by rewrite list_lookup_fmap, lookup_seq_lt.
Qed.
End slicing.

(** Reading a list at a list of valid positions. *)
Section gather.
Context {A : Type}.
Implicit Types (l : list A) (I J : list nat).

Lemma gather_lookup l I j :
  Forall (fun i => i < length l) I ->
  omap (fun i => l !! i) I !! j = I !! j ≫= (fun i => l !! i).
Proof.
  intros HI. revert j. induction HI as [|i I Hi HI IH]; intros j; [done|].
  destruct (lookup_lt_is_Some_2 l i Hi) as [x Hx]. csimpl. rewrite Hx.
  destruct j as [|j]; csimpl; [by rewrite Hx|apply IH].
Qed.

Lemma gather_length l I :
  Forall (fun i => i < length l) I ->
  length (omap (fun i => l !! i) I) = length I.
Proof.
  induction 1 as [|i I Hi HI IH]; [done|].
  destruct (lookup_lt_is_Some_2 l i Hi) as [x Hx]. csimpl. rewrite Hx. simpl. lia.
Qed.

Lemma gather_gather l I J :
  Forall (fun i => i < length l) I ->
  omap (fun j => omap (fun i => l !! i) I !! j) J =
  omap (fun i => l !! i) (omap (fun j => I !! j) J).
Proof.
  intros HI. induction J as [|j J IH]; [done|]. csimpl.
  rewrite gather_lookup by done.
  destruct (I !! j) as [i|]; csimpl; [|done].
  destruct (l !! i); csimpl; by rewrite IH.
Qed.

Lemma gather_all l : omap (fun i => l !! i) (seq 0 (length l)) = l.
Proof.
  induction l as [|x l IH] using rev_ind; [done|].
  rewrite length_app, Nat.add_1_r, seq_S, omap_app. csimpl.
  rewrite lookup_app_r, Nat.sub_diag by lia. csimpl. f_equal.
  rewrite <- IH at 2. apply list_omap_ext, Forall2_same_length_lookup.
  split; [done|]. intros i a b [-> Hi]%lookup_seq [-> _]%lookup_seq.
  by rewrite lookup_app_l.
Qed.
End gather.

Lemma gather_seq n (I : list nat) :
  Forall (fun i => i < n) I -> omap (fun i => seq 0 n !! i) I = I.
Proof.
  induction 1 as [|i I Hi HI IH]; [done|]. csimpl.
  rewrite lookup_seq_lt by done. csimpl. by rewrite IH.
Qed.

Lemma omap_fmap_Some {A B C} (f : B -> option C) (g : A -> B) (h : A -> C) (l : list A) :
  (forall x, x ∈ l -> f (g x) = Some (h x)) ->
  omap f (g <$> l) = h <$> l.
Proof.
  induction l as [|x l IH]; intros Hl; [done|]. csimpl.
  rewrite Hl by left. csimpl. f_equal. apply IH. intros y Hy. apply Hl. by right.
Qed.

Lemma slice_indices_below start stop step :
  0 < step -> Forall (fun i => i < stop) (slice_indices start stop step).
Proof.
  intros Hs. apply Forall_forall. intros i (j & Hj & ->)%elem_of_slice_indices.
  by apply slice_length_lt.
Qed.

(** ** Sharding *)

Section sharding.
Variables W N : nat.
Hypothesis W_pos : 0 < W.
Hypothesis N_pos : 0 < N.

Lemma rank_count_lt r n j : j < rank_count W r n <-> r + j * W < n.
Proof. by apply slice_length_min_lt. Qed.

Lemma shard_count_lt r w n k :
  k < shard_count W N r w n <-> r + (w + k * N) * W < n.
Proof.
  unfold shard_count. rewrite slice_length_min_lt by done.
  apply rank_count_lt.
Qed.

(** The two slices of [worker_dist], unfolded. *)
Lemma shard_unfold {A} r w (K : list A) :
  shard W N r w K =
  inr (omap (fun i => K !! i)
         (omap (fun j => slice_indices (r `min` length K) (length K) W !! j)
            (slice_indices (w `min` rank_count W r (length K))
               (rank_count W r (length K)) N))).
Proof.
  unfold shard, worker_dist, py_slice. simpl.
  destruct (Nat.eqb_spec W 0) as [?|_]; [lia|].
  destruct (Nat.eqb_spec N 0) as [?|_]; [lia|]. simpl.
  rewrite !Nat.min_id.
  assert (Forall (fun i => i < length K)
            (slice_indices (r `min` length K) (length K) W)) as HI
    by by apply slice_indices_below.
  rewrite (gather_length _ _ HI), length_slice_indices.
  unfold ret. f_equal. by apply gather_gather.
Qed.

(** The shard of [(r, w)] holds positions [r + (w + k*N)*W]. *)
Lemma gather_slices r w n :
  omap (fun j => slice_indices (r `min` n) n W !! j)
    (slice_indices (w `min` rank_count W r n) (rank_count W r n) N) =
  (fun k => r + (w + k * N) * W) <$> seq 0 (shard_count W N r w n).
Proof.
  unfold slice_indices at 2. fold (shard_count W N r w n).
  apply omap_fmap_Some. intros k [_ Hk]%elem_of_seq. simpl in Hk.
  pose proof (proj1 (shard_count_lt r w n k) Hk) as Hlt.
  assert (w + k * N < rank_count W r n) as Hj by (apply rank_count_lt; lia).
  rewrite (Nat.min_l w) by lia.
  rewrite lookup_slice_indices by done.
  f_equal. rewrite Nat.min_l; nia.
Qed.

Lemma shard_indices_explicit r w n :
  shard_indices W N r w n =
  (fun k => r + (w + k * N) * W) <$> seq 0 (shard_count W N r w n).
Proof.
  unfold shard_indices, shard_list.
  rewrite shard_unfold, length_seq, gather_slices.
  apply gather_seq, Forall_forall.
  intros i (k & -> & [_ Hk]%elem_of_seq)%list_elem_of_fmap.
  by apply shard_count_lt.
Qed.

Lemma shard_by_indices {A} r w (K : list A) :
  shard W N r w K =
  inr (omap (fun i => K !! i) (shard_indices W N r w (length K))).
Proof. by rewrite shard_unfold, gather_slices, shard_indices_explicit. Qed.

Lemma elem_of_shard_indices r w n i :
  r < W -> w < N ->
  i ∈ shard_indices W N r w n <->
  i < n /\ i mod W = r /\ (i / W) mod N = w.
Proof.
  intros Hr Hw. rewrite shard_indices_explicit, list_elem_of_fmap.
  setoid_rewrite elem_of_seq. split.
  - intros (k & -> & _ & Hk). simpl in Hk.
    apply shard_count_lt in Hk. split; [done|].
    rewrite Nat.Div0.mod_add, Nat.mod_small by done.
    rewrite Nat.div_add, Nat.div_small, Nat.add_0_l by lia.
    by rewrite Nat.Div0.mod_add, Nat.mod_small.
  - intros (Hi & <- & <-). exists (i / W / N).
    pose proof (Nat.div_mod_eq i W). pose proof (Nat.div_mod_eq (i / W) N).
    assert (i = i mod W + ((i / W) mod N + i / W / N * N) * W) as Hi' by lia.
    split; [done|]. split; [lia|]. simpl. apply shard_count_lt. lia.
Qed.

Lemma shard_indices_below r w n :
  Forall (fun i => i < n) (shard_indices W N r w n).
Proof.
  apply Forall_forall. rewrite shard_indices_explicit.
  intros i (k & -> & [_ Hk]%elem_of_seq)%list_elem_of_fmap.
  by apply shard_count_lt.
Qed.

Lemma NoDup_shard_indices r w n : NoDup (shard_indices W N r w n).
Proof.
  rewrite shard_indices_explicit. apply NoDup_fmap_2_strong; [|apply NoDup_seq].
  intros k1 k2 _ _ Heq.
  assert (k1 * (N * W) = k2 * (N * W)) as Hk by lia.
  apply Nat.mul_cancel_r in Hk; [done|nia].
Qed.

Lemma length_shard_indices r w n :
  length (shard_indices W N r w n) = shard_count W N r w n.
Proof. by rewrite shard_indices_explicit, length_fmap, length_seq. Qed.

(** A shard has the quotient [n / (W*N)] or one more. *)
Lemma shard_count_bounds r w n :
  r < W -> w < N ->
  n / (W * N) <= shard_count W N r w n <= n / (W * N) + 1.
Proof.
  intros Hr Hw. set (q := n / (W * N)).
  assert ((W * N) * q <= n) as Hlo by (apply Nat.Div0.mul_div_le).
  assert (n < (W * N) * S q) as Hhi by (apply Nat.mul_succ_div_gt; lia).
  split.
  - destruct q as [|q']; [lia|].
    assert (q' < shard_count W N r w n); [|lia].
    apply shard_count_lt. nia.
  - assert (~ S q < shard_count W N r w n); [|lia].
    rewrite shard_count_lt. nia.
Qed.
End sharding.

Lemma elem_of_all_pairs W N r w : (r, w) ∈ all_pairs W N <-> r < W /\ w < N.
Proof.
  unfold all_pairs. rewrite list_elem_of_bind.
  setoid_rewrite list_elem_of_fmap. setoid_rewrite elem_of_seq. split.
  - intros (r' & (w' & [= -> ->] & ?) & ?). lia.
  - intros [??]. exists r. split; [exists w|]; split; (done || lia).
Qed.

Lemma NoDup_all_pairs W N : NoDup (all_pairs W N).
Proof.
  unfold all_pairs. apply NoDup_bind; [| |apply NoDup_seq].
  - intros r1 r2 [r w] _ _ (? & [= -> _] & _)%list_elem_of_fmap
      (? & [= -> _] & _)%list_elem_of_fmap. done.
  - intros r _. apply NoDup_fmap_2_strong; [|apply NoDup_seq]. by intros ???? [= ->].
Qed.

Lemma omap_bind {A B C} (f : B -> option C) (g : A -> list B) (l : list A) :
  omap f (l ≫= g) = l ≫= (fun x => omap f (g x)).
Proof. induction l as [|x l IH]; [done|]. csimpl. by rewrite omap_app, IH. Qed.

(** [worker_dist] reads nothing of the instance but [dist], [rank] and
    [world_size]. *)
Lemma worker_dist_shard {A} (self : S3IterableDataset) (wi : WorkerInfo) (urls : list A) :
  dist self = true ->
  worker_dist self (Some wi) urls =
  shard (world_size self) (wi_num_workers wi) (rank self) (wi_id wi) urls.
Proof. intros Hd. unfold shard, worker_dist. simpl. by rewrite Hd. Qed.

(** The index sets of all shards together are the positions of the key
    list, each once. *)
Lemma shard_indices_cover W N n :
  0 < W -> 0 < N ->
  (all_pairs W N ≫= (fun p => shard_indices W N p.1 p.2 n)) ≡ₚ seq 0 n.
Proof.
  intros HW HN. apply NoDup_Permutation.
  - apply NoDup_bind; [| |apply NoDup_all_pairs].
    + intros [r w] [r' w'] i [??]%elem_of_all_pairs [??]%elem_of_all_pairs. simpl.
      rewrite !elem_of_shard_indices by done. intros (_ & <- & <-) (_ & <- & <-). done.
    + intros [r w] _. by apply NoDup_shard_indices.
  - apply NoDup_seq.
  - intros i. rewrite list_elem_of_bind, elem_of_seq. split.
    + intros ([r w] & Hi & [??]%elem_of_all_pairs). simpl in Hi.
      rewrite elem_of_shard_indices in Hi by done. lia.
    + intros [_ Hi]. exists (i mod W, (i / W) mod N). simpl. split.
      * rewrite elem_of_shard_indices; [lia|lia|lia|..]; apply Nat.mod_upper_bound; lia.
      * apply elem_of_all_pairs. split; apply Nat.mod_upper_bound; lia.
Qed.

(** C1: with distributed mode on and inside a worker, the shards that
    [worker_dist] computes for the pairs (rank < world size, worker id <
    worker count) select pairwise disjoint index sets, every position of
    the key list lies in one of them, all shards together are the key
    list again (as a multiset), and each shard has [len(K) // (W*N)]
    keys or one more. *)
Theorem worker_dist_shards_partition (K : list string) (W N : nat) :
  0 < W -> 0 < N ->
  let n := length K in
  (forall (self : S3IterableDataset) (wi : WorkerInfo),
      dist self = true -> world_size self = W -> wi_num_workers wi = N ->
      rank self < W -> wi_id wi < N ->
      let idx := shard_indices W N (rank self) (wi_id wi) n in
      exists sh,
        worker_dist self (Some wi) K = inr sh /\
        sh = shard_list W N (rank self) (wi_id wi) K /\
        sh = omap (fun i => K !! i) idx /\
        length sh = length idx /\
        Forall (fun i => i < n) idx /\ NoDup idx /\
        n / (W * N) <= length sh <= n / (W * N) + 1) /\
  (forall r w r' w' i, r < W -> w < N -> r' < W -> w' < N ->
      i ∈ shard_indices W N r w n -> i ∈ shard_indices W N r' w' n ->
      r = r' /\ w = w') /\
  (forall i, i < n -> exists r w, r < W /\ w < N /\ i ∈ shard_indices W N r w n) /\
  (all_pairs W N ≫= (fun p => shard_list W N p.1 p.2 K)) ≡ₚ K.
Proof.
  intros HW HN n. split_and!.
  - intros self wi Hd <- <- Hr Hw idx.
    assert (length (omap (fun i => K !! i) idx) = length idx) as Hlen
      by by apply gather_length, shard_indices_below.
    exists (omap (fun i => K !! i) idx). split_and!.
    + rewrite worker_dist_shard by done. by apply shard_by_indices.
    + unfold shard_list. by rewrite shard_by_indices.
    + done.
    + done.
    + by apply shard_indices_below.
    + by apply NoDup_shard_indices.
    + rewrite Hlen. unfold idx. rewrite length_shard_indices by done.
      by apply shard_count_bounds.
    + rewrite Hlen. unfold idx. rewrite length_shard_indices by done.
      by apply shard_count_bounds.
  - intros r w r' w' i Hr Hw Hr' Hw'.
    rewrite !elem_of_shard_indices by done. intros (_ & <- & <-) (_ & <- & <-). done.
  - intros i Hi. exists (i mod W), ((i / W) mod N).
    assert (i mod W < W) by (apply Nat.mod_upper_bound; lia).
    assert ((i / W) mod N < N) by (apply Nat.mod_upper_bound; lia).
    split_and!; [done..|]. by apply elem_of_shard_indices.
  - transitivity (omap (fun i => K !! i) (seq 0 n)); [|unfold n; by rewrite gather_all].
    rewrite <- (shard_indices_cover W N n) by done. rewrite omap_bind.
    erewrite list_bind_ext; [reflexivity| |done].
    intros [r w]. simpl. unfold shard_list. by rewrite shard_by_indices.
Qed.

Lemma worker_dist_shards_partition_witness :
  (all_pairs 2 3 ≫=
     (fun p => shard_list 2 3 p.1 p.2 ["k0"; "k1"; "k2"; "k3"; "k4"; "k5"; "k6"]%string))
  ≡ₚ ["k0"; "k1"; "k2"; "k3"; "k4"; "k5"; "k6"]%string.
Proof.
  apply (worker_dist_shards_partition
           ["k0"; "k1"; "k2"; "k3"; "k4"; "k5"; "k6"]%string 2 3); lia.
Defined.

(** ** The per-epoch permutation of the keys *)

(** C2: with [shuffle_urls] on, [shuffled_list] is a function of the
    epoch and the key list alone: two instances (two replicas) with the
    same epoch and the same key list compute the same list, whatever
    their rank or world size and whatever state the [random] generator of
    each process was in before; the generator is left in the same state
    as well. *)
Theorem shuffled_list_deterministic {G} `{PyRandom G}
    (self1 self2 : S3IterableDataset) (g1 g2 : G) :
  shuffle_urls self1 = true -> shuffle_urls self2 = true ->
  epoch self1 = epoch self2 ->
  urls_list self1 = urls_list self2 ->
  shuffled_list self1 g1 = shuffled_list self2 g2.
Proof.
  intros Hs1 Hs2 He Hu. unfold shuffled_list.
  by rewrite Hs1, Hs2, He, Hu.
Qed.

Lemma shuffled_list_deterministic_witness :
  shuffled_list
    (mkS3IterableDataset 7 true true 4 0 ["k0"; "k1"; "k2"; "k3"; "k4"]%string) 11%Z =
  shuffled_list
    (mkS3IterableDataset 7 true true 4 3 ["k0"; "k1"; "k2"; "k3"; "k4"]%string) 9999%Z.
Proof.
  apply (shuffled_list_deterministic
           (mkS3IterableDataset 7 true true 4 0 ["k0"; "k1"; "k2"; "k3"; "k4"]%string)
           (mkS3IterableDataset 7 true true 4 3 ["k0"; "k1"; "k2"; "k3"; "k4"]%string)
           11%Z 9999%Z); reflexivity.
Defined.

(** ** Choosing the container by the file name *)

Lemma substring_step (s : string) (n m : nat) (c : ascii) (t : string) :
  substring n (S m) s = String c t -> substring (S n) m s = t.
Proof.
  revert n. induction s as [|a s IH]; intros n Hs.
  - by destruct n.
  - destruct n as [|n]; simpl in Hs.
    + injection Hs as _ <-. by destruct m.
    + apply IH in Hs. rewrite <- Hs. by destruct m.
Qed.

(** A name that ends in a dot and three letters ends in those letters. *)
Lemma endswith_dot_last3 (s : string) (a b c : ascii) :
  endswith s (String "." (String a (String b (String c EmptyString)))) = true ->
  last3 s = String a (String b (String c EmptyString)).
Proof.
  unfold endswith, last3. intros [Hlen Heq]%andb_prop.
  apply Nat.leb_le in Hlen. apply String.eqb_eq in Heq. simpl in Hlen, Heq.
  apply substring_step in Heq.
  by replace (S (String.length s - 4)) with (String.length s - 3) in Heq by lia.
Qed.

Section download_data_kind.
Context `{TarFile} `{ZipFile}.
Implicit Types (handler : S3Init) (filename : string).

Lemma download_data_tar handler filename :
  last3 filename = "tar"%string ->
  download_data handler filename =
  tardata (s3_read handler filename) (Some default_skip_meta) reraise_exception.
Proof. intros Hl. unfold download_data. by rewrite Hl. Qed.

Lemma download_data_zip handler filename :
  last3 filename = "zip"%string ->
  download_data handler filename = zipdata (s3_read handler filename).
Proof. intros Hl. unfold download_data. by rewrite Hl. Qed.

Lemma download_data_plain handler filename :
  last3 filename <> "tar"%string -> last3 filename <> "zip"%string ->
  download_data handler filename = ([(filename, s3_read handler filename)], None).
Proof.
  intros Ht Hz. unfold download_data.
  destruct (String.eqb_spec (last3 filename) "tar"); [done|].
  by destruct (String.eqb_spec (last3 filename) "zip").
Qed.
End download_data_kind.

(** C3, as stated, fails: ["mortar"] ends neither in [.tar] nor in
    [.zip], yet [download_data] reads it as a tar archive, and with a tar
    reader that finds members in the buffer the records are not the one
    record ("mortar", bytes). *)
Lemma download_data_mortar_is_tar :
  endswith "mortar" ".tar" = false /\
  endswith "mortar" ".zip" = false /\
  download_data toy_handler "mortar" =
    tardata (s3_read toy_handler "mortar") (Some default_skip_meta) reraise_exception /\
  download_data toy_handler "mortar" <>
    ([("mortar"%string, s3_read toy_handler "mortar")], None).
Proof. split_and!; [reflexivity..|]. vm_compute. discriminate. Qed.

(** C3, amended: [download_data] looks at the last three characters of
    the name and at nothing before them.  A name whose last three
    characters are [tar] is read as a tar archive, one whose last three
    are [zip] as a zip archive, and any other name gives exactly the one
    record (name, fetched bytes).  So names ending in [.tar] and [.zip]
    are archives, and so is ["mortar"]. *)
Theorem download_data_by_last3 `{TarFile} `{ZipFile} (handler : S3Init) (filename : string) :
  (last3 filename = "tar"%string ->
     download_data handler filename =
     tardata (s3_read handler filename) (Some default_skip_meta) reraise_exception) /\
  (last3 filename = "zip"%string ->
     download_data handler filename = zipdata (s3_read handler filename)) /\
  (last3 filename <> "tar"%string -> last3 filename <> "zip"%string ->
     download_data handler filename = ([(filename, s3_read handler filename)], None)) /\
  (endswith filename ".tar" = true -> last3 filename = "tar"%string) /\
  (endswith filename ".zip" = true -> last3 filename = "zip"%string) /\
  last3 "mortar" = "tar"%string.
Proof.
  split_and!.
  - apply download_data_tar.
  - apply download_data_zip.
  - apply download_data_plain.
  - apply endswith_dot_last3.
  - apply endswith_dot_last3.
  - reflexivity.
Qed.

Lemma download_data_by_last3_witness :
  download_data toy_handler "s3://bucket/notes.txt" =
  ([("s3://bucket/notes.txt"%string, s3_read toy_handler "s3://bucket/notes.txt")], None).
Proof.
  apply (proj1 (proj2 (proj2
           (download_data_by_last3 toy_handler "s3://bucket/notes.txt"))));
    discriminate.
Defined.

(** ** tardata *)

(** A regular member with a bare name bracketed by [__] is skipped,
    whatever the skip pattern. *)
Lemma tardata_member_meta (skip_meta : option regex) (tarinfo : TarInfo) (fname : string) :
  isreg tarinfo = true -> name tarinfo = Some fname ->
  str_in "/" fname = false ->
  startswith fname meta_prefix = true -> endswith fname meta_suffix = true ->
  tardata_member skip_meta tarinfo = Skip.
Proof.
  intros Hreg Hname Hslash Hpre Hsuf. unfold tardata_member.
  by rewrite Hreg, Hname, Hslash, Hpre, Hsuf.
Qed.

(** C4: on a tar stream whose members are the regular files [a.txt],
    [__meta__] and [b/c.txt], in that order, [tardata] with the default
    skip pattern and the default handler yields ("a.txt", content) and
    then ("b/c.txt", content) and ends normally.  [__meta__] is dropped
    by the bare-name check; [b/c.txt] passes both that check and the
    pattern. *)
Theorem tardata_skips_bare_meta `{TarFile} (fileobj a_data c_data : bytes)
    (meta_read : result bytes) :
  tarfile_open fileobj =
    TarMember (mkTarInfo true (Some "a.txt"%string) (inr a_data))
      (TarMember (mkTarInfo true (Some "__meta__"%string) meta_read)
         (TarMember (mkTarInfo true (Some "b/c.txt"%string) (inr c_data)) TarEnd)) ->
  tardata fileobj (Some default_skip_meta) reraise_exception =
    ([("a.txt"%string, a_data); ("b/c.txt"%string, c_data)], None) /\
  tardata_member None (mkTarInfo true (Some "__meta__"%string) meta_read) = Skip /\
  tardata_member (Some default_skip_meta)
    (mkTarInfo true (Some "b/c.txt"%string) (inr c_data)) = Yield "b/c.txt" c_data.
Proof.
  intros Hopen. unfold tardata. rewrite Hopen. split_and!; reflexivity.
Qed.

Lemma tardata_skips_bare_meta_witness :
  tardata [Byte.x2a] (Some default_skip_meta) reraise_exception =
    ([("a.txt"%string, [Byte.x2a]); ("b/c.txt"%string, [Byte.x2a])], None).
Proof.
  apply (tardata_skips_bare_meta [Byte.x2a] [Byte.x2a] [Byte.x2a] (inr [Byte.x2a])).
  reflexivity.
Defined.

(** ** ShuffleDataset *)

Lemma fill_spec {A} (n : nat) (shufbuf dataset_iter : list A) :
  fill n shufbuf dataset_iter =
  (shufbuf ++ take n dataset_iter, drop n dataset_iter,
   bool_decide (length dataset_iter < n)).
Proof.
  revert shufbuf dataset_iter. induction n as [|n IH]; intros shufbuf src.
  - cbn [fill]. rewrite take_0, drop_0, app_nil_r.
    by rewrite bool_decide_eq_false_2 by lia.
  - destruct src as [|x src]; cbn [fill].
    + rewrite take_nil, drop_nil, app_nil_r.
      by rewrite bool_decide_eq_true_2 by (simpl; lia).
    + rewrite IH, <- app_assoc. cbn [take drop app length].
      do 2 f_equal. apply bool_decide_ext. lia.
Qed.

(** Popping at a valid position takes one element out. *)
Lemma py_pop_in_range {A} (l : list A) (i : Z) :
  (0 <= i < Z.of_nat (length l))%Z ->
  exists x l', py_pop l i = inr (x, l') /\ l ≡ₚ x :: l' /\ S (length l') = length l.
Proof.
  intros Hi. unfold py_pop. cbv zeta.
  rewrite (proj2 (Z.ltb_ge i 0)) by lia. cbv iota.
  rewrite (proj2 (Z.ltb_ge i 0)) by lia.
  rewrite (proj2 (Z.leb_gt (Z.of_nat (length l)) i)) by lia. simpl.
  destruct (lookup_lt_is_Some_2 l (Z.to_nat i)) as [x Hx]; [lia|].
  rewrite Hx. eexists _, _. split; [reflexivity|].
  split.
  - rewrite Permutation_middle. by rewrite take_drop_middle.
  - rewrite length_app, length_take, length_drop. lia.
Qed.

Section shuffle.
Context {A G : Type} `{PyRandom G}.

(** [random.randint(a, b)] answers within [a..b]. *)
Hypothesis randint_range : forall (g : G) (a b : Z),
  (a <= b)%Z -> (a <= (randint g a b).1 <= b)%Z.

Implicit Types (shufbuf src : list A) (g : G).

(** One eviction from a non-empty buffer whose length is [n]. *)
Lemma evict_step shufbuf g (n : Z) :
  n = Z.of_nat (length shufbuf) -> (0 < n)%Z ->
  exists evict_idx g' x shufbuf',
    py_randint g 0 (n - 1) = inr (evict_idx, g') /\
    py_pop shufbuf evict_idx = inr (x, shufbuf') /\
    shufbuf ≡ₚ x :: shufbuf' /\ S (length shufbuf') = length shufbuf.
Proof.
  intros -> Hpos. unfold py_randint.
  destruct (Z.leb_spec 0 (Z.of_nat (length shufbuf) - 1)) as [Hle|?]; [|lia].
  pose proof (randint_range g _ _ Hle) as Hr.
  destruct (randint g 0 (Z.of_nat (length shufbuf) - 1)) as [i g'] eqn:Hg.
  simpl in Hr.
  destruct (py_pop_in_range shufbuf i) as (x & l' & Hp & Hperm & Hlen); [lia|].
  by exists i, g', x, l'.
Qed.

(** The eviction loop loses nothing: what it yields and what it leaves
    in the buffer are the buffer and the rest of the source. *)
Lemma evict_loop_perm (buffer_size : Z) shufbuf src g :
  buffer_size = Z.of_nat (length shufbuf) -> (0 < buffer_size)%Z ->
  let r := evict_loop buffer_size shufbuf src g in
  raised r = None /\ yielded r ++ shufbuf_end r ≡ₚ shufbuf ++ src.
Proof.
  revert shufbuf g. induction src as [|item src IH]; intros shufbuf g Hlen Hpos.
  - destruct (evict_step shufbuf g buffer_size Hlen Hpos)
      as (i & g' & x & l' & Hr & Hp & Hperm & _).
    simpl. destruct (Z.eqb_spec buffer_size 0) as [?|_]; [lia|].
    rewrite Hr, Hp. simpl. split; [done|]. by rewrite app_nil_r, Hperm.
  - destruct (evict_step shufbuf g buffer_size Hlen Hpos)
      as (i & g' & x & l' & Hr & Hp & Hperm & Hl).
    simpl. destruct (Z.eqb_spec buffer_size 0) as [?|_]; [lia|].
    rewrite Hr, Hp. simpl.
    destruct (IH (l' ++ [item]) g') as [Hnone Hrest]; [|done|].
    { rewrite length_app. simpl. lia. }
    split; [done|]. rewrite Hrest, Hperm, <- app_assoc. done.
Qed.

(** The drain loop empties the buffer. *)
Lemma drain_loop_perm shufbuf g :
  let r := drain_loop (length shufbuf) shufbuf g in
  raised r = None /\ shufbuf_end r = [] /\ yielded r ≡ₚ shufbuf.
Proof.
  remember (length shufbuf) as n eqn:Hn. revert shufbuf g Hn.
  induction n as [|n IH]; intros shufbuf g Hn.
  - destruct shufbuf; [done|discriminate].
  - destruct (evict_step shufbuf g (Z.of_nat (length shufbuf)) eq_refl)
      as (i & g' & x & l' & Hr & Hp & Hperm & Hl); [lia|].
    simpl. rewrite Hr, Hp. simpl.
    destruct (IH l' g') as (Hnone & Hend & Hy); [lia|].
    split_and!; [done..|]. by rewrite Hy, Hperm.
Qed.

Lemma py_randint_0 g : exists g', py_randint g 0 0 = inr (0%Z, g').
Proof.
  unfold py_randint. cbn [Z.leb Z.compare].
  pose proof (randint_range g 0 0 ltac:(lia)) as Hi.
  destruct (randint g 0 0) as [i g']. simpl in Hi.
  exists g'. unfold ret. do 2 f_equal. lia.
Qed.

Lemma evict_loop_eq (buffer_size : Z) shufbuf src g :
  evict_loop buffer_size shufbuf src g =
  if (buffer_size =? 0)%Z then mkLoopEnd [] shufbuf g None
  else
    match py_randint g 0 (buffer_size - 1) with
    | inl e => mkLoopEnd [] shufbuf g (Some e)
    | inr (evict_idx, g') =>
        match py_pop shufbuf evict_idx with
        | inl e => mkLoopEnd [] shufbuf g' (Some e)
        | inr (x, shufbuf') =>
            loop_yield x
              match src with
              | [] => mkLoopEnd [] shufbuf' g' None
              | item :: src' => evict_loop buffer_size (shufbuf' ++ [item]) src' g'
              end
        end
    end.
Proof. by destruct src. Qed.

(** With a buffer of one, the eviction loop hands the source through. *)
Lemma evict_loop_one (x : A) src g :
  let r := evict_loop 1 [x] src g in
  raised r = None /\ shufbuf_end r = [] /\ yielded r = x :: src.
Proof.
  revert x g. induction src as [|item src IH]; intros x g;
    destruct (py_randint_0 g) as [g' Hr]; cbv zeta; rewrite evict_loop_eq;
    change (1 =? 0)%Z with false; change (1 - 1)%Z with 0%Z; cbv iota;
    rewrite Hr; change (py_pop [x] 0) with (@inr exn _ (x, @nil A)); cbv iota beta;
    [done|].
  destruct (IH item g') as (Hnone & Hend & Hy).
  split_and!; [done..|]. simpl. by rewrite Hy.
Qed.
End shuffle.

(** The stand-in generator answers within the range asked for. *)
Lemma lcg_randint_range (g a b : Z) :
  (a <= b)%Z -> (a <= (randint g a b).1 <= b)%Z.
Proof.
  intros Hab. simpl.
  pose proof (Z.mod_pos_bound g (b - a + 1) ltac:(lia)). lia.
Qed.

(** What a pass does to the instance: [buffer_size] is overwritten when
    the source is shorter than the buffer, and nothing else changes. *)
Lemma ShuffleDataset_iter_self {A G} `{PyRandom G} (self : ShuffleDataset A) (g : G) :
  (ShuffleDataset_iter self g).1 =
  if bool_decide (length (dataset self) < Z.to_nat (buffer_size self))
  then mkShuffleDataset (dataset self) (Z.of_nat (length (dataset self)))
  else self.
Proof.
  unfold ShuffleDataset_iter. rewrite fill_spec.
  case_bool_decide as Hlt.
  - rewrite take_ge by lia. simpl. by destruct (raised _).
  - by destruct (raised _).
Qed.

Lemma iter_passes_stable {A G} `{PyRandom G} (k : nat) (self : ShuffleDataset A) (g : G) :
  (0 <= buffer_size self <= Z.of_nat (length (dataset self)))%Z ->
  (iter_passes k self g).1 = self.
Proof.
  revert self g. induction k as [|k IH]; intros self g Hb; [done|].
  simpl. destruct (ShuffleDataset_iter self g) as [self' r] eqn:Hit.
  assert (self' = self) as ->.
  { change self' with (self', r).1. rewrite <- Hit, ShuffleDataset_iter_self.
    by rewrite bool_decide_eq_false_2 by lia. }
  by apply IH.
Qed.

(** C5: with [buffer_size = 1] the shuffle is a pass-through: a full
    pass yields the source sequence, element for element and in order,
    and ends normally with an empty buffer. *)
Theorem shuffle_buffer_one_passthrough {A G} `{PyRandom G} (src : list A) (g : G) :
  (forall (g : G) (a b : Z), (a <= b)%Z -> (a <= (randint g a b).1 <= b)%Z) ->
  let r := (ShuffleDataset_iter (mkShuffleDataset src 1) g).2 in
  yielded r = src /\ raised r = None /\ shufbuf_end r = [].
Proof.
  intros Hrange. unfold ShuffleDataset_iter. simpl.
  destruct src as [|x src]; simpl; [done|].
  destruct (evict_loop_one Hrange x src g) as (Hnone & Hend & Hy).
  rewrite Hnone, Hend, Hy. simpl. by rewrite app_nil_r.
Qed.

Lemma shuffle_buffer_one_passthrough_witness :
  yielded (ShuffleDataset_iter (mkShuffleDataset [3; 1; 4; 1; 5; 9; 2; 6] 1) 42%Z).2
  = [3; 1; 4; 1; 5; 9; 2; 6].
Proof.
  apply (shuffle_buffer_one_passthrough [3; 1; 4; 1; 5; 9; 2; 6] 42%Z lcg_randint_range).
Defined.

(** C6: for every [buffer_size] at least as long as the source, and
    for every [buffer_size > 0], whatever [randint] answers within its
    range, a full pass ends normally with an empty buffer and what it
    yielded is a permutation of the source: every element once, none
    lost, none twice. *)
Theorem shuffle_is_permutation {A G} `{PyRandom G} (self : ShuffleDataset A) (g : G) :
  (forall (g : G) (a b : Z), (a <= b)%Z -> (a <= (randint g a b).1 <= b)%Z) ->
  (0 < buffer_size self)%Z \/ (Z.of_nat (length (dataset self)) <= buffer_size self)%Z ->
  let r := (ShuffleDataset_iter self g).2 in
  raised r = None /\ shufbuf_end r = [] /\ yielded r ≡ₚ dataset self.
Proof.
  intros Hrange Hpos. unfold ShuffleDataset_iter. rewrite fill_spec.
  set (n := Z.to_nat (buffer_size self)). set (src := dataset self).
  assert (forall bs buf rest, bs = Z.of_nat (length buf) ->
            (bs = 0%Z -> rest = []) -> buf ++ rest ≡ₚ src ->
            let r1 := evict_loop bs buf rest g in
            let r := match raised r1 with
                     | Some e => r1
                     | None =>
                         let r2 := drain_loop (length (shufbuf_end r1))
                                     (shufbuf_end r1) (rng_end r1) in
                         mkLoopEnd (yielded r1 ++ yielded r2) (shufbuf_end r2)
                           (rng_end r2) (raised r2)
                     end in
            raised r = None /\ shufbuf_end r = [] /\ yielded r ≡ₚ src) as Hgo.
  { intros bs buf rest Hbs Hzero Hsrc r1.
    assert (raised r1 = None /\ yielded r1 ++ shufbuf_end r1 ≡ₚ src) as [Hnone Hperm].
    { destruct (Z.eq_dec bs 0%Z) as [->|Hne].
      - rewrite (Hzero eq_refl) in *. destruct buf; [|discriminate].
        unfold r1. rewrite evict_loop_eq. simpl. by rewrite <- Hsrc.
      - rewrite <- Hsrc. apply (evict_loop_perm Hrange); lia. }
    rewrite Hnone. cbv zeta.
    destruct (drain_loop_perm Hrange (shufbuf_end r1) (rng_end r1)) as (Hn2 & He2 & Hy2).
    simpl. split_and!; [done..|]. by rewrite Hy2. }
  case_bool_decide as Hlt.
  - specialize (Hgo (Z.of_nat (length (take n src))) (take n src) (drop n src)).
    destruct (raised (evict_loop _ _ _ _)) eqn:Hr1; simpl in *;
      rewrite Hr1 in Hgo; apply Hgo; try done;
      (by rewrite drop_ge by lia) || by rewrite take_drop.
  - specialize (Hgo (buffer_size self) (take n src) (drop n src)).
    destruct (raised (evict_loop _ _ _ _)) eqn:Hr1; simpl in *;
      rewrite Hr1 in Hgo; apply Hgo; try (by rewrite take_drop);
      try (rewrite length_take; unfold n in *; lia);
      intros Hz; apply nil_length_inv; rewrite length_drop; unfold src in *; lia.
Qed.

Lemma shuffle_is_permutation_witness :
  yielded (ShuffleDataset_iter (mkShuffleDataset [3; 1; 4; 1; 5; 9; 2; 6] 3) 42%Z).2
  ≡ₚ [3; 1; 4; 1; 5; 9; 2; 6].
Proof.
  apply (shuffle_is_permutation (mkShuffleDataset [3; 1; 4; 1; 5; 9; 2; 6] 3) 42%Z
           lcg_randint_range).
  left. simpl. lia.
Defined.

(** C10: when the source is shorter than [buffer_size], a pass
    overwrites the instance's [buffer_size] with the number of items
    pulled, the length of the source.  The wrapped dataset is untouched.
    The overwritten value stays for every later pass of the same
    instance: each of them starts its fill from the reduced size, not
    from the size given at construction. *)
Theorem shuffle_buffer_size_shrinks {A G} `{PyRandom G} (self : ShuffleDataset A) (g : G) :
  (Z.of_nat (length (dataset self)) < buffer_size self)%Z ->
  let self' := (ShuffleDataset_iter self g).1 in
  buffer_size self' = Z.of_nat (length (dataset self)) /\
  buffer_size self' <> buffer_size self /\
  dataset self' = dataset self /\
  (forall (k : nat) (g' : G),
      buffer_size (iter_passes (S k) self g').1 = Z.of_nat (length (dataset self))) /\
  (forall g', (ShuffleDataset_iter self' g').1 = self') /\
  fill (Z.to_nat (buffer_size self')) [] (dataset self') = (dataset self, [], false).
Proof.
  intros Hlt. cbv zeta.
  assert (forall g0, (ShuffleDataset_iter self g0).1 =
            mkShuffleDataset (dataset self) (Z.of_nat (length (dataset self)))) as Hself.
  { intros g0. rewrite ShuffleDataset_iter_self. by rewrite bool_decide_eq_true_2 by lia. }
  rewrite Hself. simpl. split_and!.
  - done.
  - lia.
  - done.
  - intros k g'. simpl.
    destruct (ShuffleDataset_iter self g') as [self1 r] eqn:Hit.
    assert (self1 = mkShuffleDataset (dataset self) (Z.of_nat (length (dataset self))))
      as -> by (change self1 with (self1, r).1; by rewrite <- Hit, Hself).
    rewrite iter_passes_stable; [done|]. simpl. lia.
  - intros g'. rewrite ShuffleDataset_iter_self. simpl.
    by rewrite bool_decide_eq_false_2 by lia.
  - rewrite fill_spec, Nat2Z.id, take_ge, drop_ge by lia. simpl.
    by rewrite bool_decide_eq_false_2 by lia.
Qed.

Lemma shuffle_buffer_size_shrinks_witness :
  buffer_size (ShuffleDataset_iter (mkShuffleDataset [3; 1; 4] 10) 42%Z).1 = 3%Z.
Proof.
  apply (shuffle_buffer_size_shrinks (mkShuffleDataset [3; 1; 4] 10) 42%Z).
  simpl. lia.
Defined.

(** ** Resolving locations *)

Section resolve.
Variable handler : S3Init.
Implicit Types (urls acc : list string) (url : string).

(** The two ways of appending an existing location agree. *)
Lemma create_urls_list_loop_exists url urls acc :
  file_exists handler url = true ->
  create_urls_list_loop handler (url :: urls) acc =
  create_urls_list_loop handler urls (acc ++ [url]).
Proof. intros He. simpl. rewrite He. simpl. by destruct acc. Qed.

Lemma create_urls_list_loop_listing url urls acc :
  file_exists handler url = false -> list_files handler url <> [] ->
  create_urls_list_loop handler (url :: urls) acc =
  create_urls_list_loop handler urls (acc ++ list_files handler url).
Proof.
  intros He Hl. simpl. rewrite He. simpl.
  by destruct (list_files handler url).
Qed.

Lemma create_urls_list_loop_empty url urls acc :
  empty_prefix handler url ->
  create_urls_list_loop handler (url :: urls) acc =
  inl (AssertionError ("The directory " ++ url ++ " does not contain any objects.")).
Proof. intros [He Hl]. simpl. by rewrite He, Hl. Qed.

(** The loop appends the resolution of each location, in order. *)
Lemma create_urls_list_loop_ok urls acc :
  Forall (fun url => ~ empty_prefix handler url) urls ->
  create_urls_list_loop handler urls acc =
  inr (acc ++ (urls ≫= resolve_location handler)).
Proof.
  intros Hok. revert acc. induction Hok as [|url urls Hurl _ IH]; intros acc.
  - simpl. by rewrite app_nil_r.
  - rewrite bind_cons, app_assoc. unfold resolve_location at 1.
    destruct (file_exists handler url) eqn:He.
    + by rewrite create_urls_list_loop_exists, IH.
    + rewrite create_urls_list_loop_listing, IH; [done..|].
      intros Hl. by apply Hurl.
Qed.

(** The loop fails at the first location that neither exists nor lists
    anything. *)
Lemma create_urls_list_loop_fails urls acc url :
  url ∈ urls -> empty_prefix handler url ->
  exists url', url' ∈ urls /\ empty_prefix handler url' /\
    create_urls_list_loop handler urls acc =
    inl (AssertionError ("The directory " ++ url' ++ " does not contain any objects.")).
Proof.
  intros Hin Hempty. revert acc.
  induction urls as [|u urls IH]; intros acc; [by apply elem_of_nil in Hin|].
  destruct (file_exists handler u) eqn:He.
  - rewrite create_urls_list_loop_exists by done.
    apply elem_of_cons in Hin as [->|Hin]; [destruct Hempty; congruence|].
    destruct (IH Hin (acc ++ [u])) as (u' & ? & ? & ?).
    exists u'. split_and!; [by right|done..].
  - destruct (list_files handler u) as [|o os] eqn:Hl.
    + exists u. split_and!; [by left|done|].
      by apply create_urls_list_loop_empty.
    + rewrite create_urls_list_loop_listing by (done || by rewrite Hl).
      apply elem_of_cons in Hin as [->|Hin]; [destruct Hempty; congruence|].
      destruct (IH Hin (acc ++ list_files handler u)) as (u' & ? & ? & ?).
      exists u'. split_and!; [by right|done..].
Qed.
End resolve.

(** C7: if one of the locations neither exists as an object nor lists
    any key, [create_urls_list] raises the assertion error of such a
    location (the first one) and returns no key list at all, neither an
    empty nor a partial one; the constructors fail with it, so no
    instance exists that could be iterated. *)
Theorem create_urls_list_empty_prefix_fails (handler : S3Init) (urls : list string)
    (url : string) :
  url ∈ urls ->
  file_exists handler url = false ->
  list_files handler url = [] ->
  exists url',
    let err := AssertionError
                 ("The directory " ++ url' ++ " does not contain any objects.") in
    url' ∈ urls /\ file_exists handler url' = false /\ list_files handler url' = [] /\
    create_urls_list handler urls = inl err /\
    (forall keys, create_urls_list handler urls <> inr keys) /\
    S3BaseClass_init handler (Urls urls) = inl err /\
    (forall dist_ctx shuffle,
        S3IterableDataset_init handler dist_ctx (Urls urls) shuffle = inl err).
Proof.
  intros Hin He Hl.
  destruct (create_urls_list_loop_fails handler urls [] url Hin (conj He Hl))
    as (url' & Hin' & [He' Hl'] & Hfail).
  exists url'. cbv zeta. unfold S3IterableDataset_init, S3BaseClass_init, create_urls_list.
  rewrite Hfail. split_and!; try done.
Qed.

Lemma create_urls_list_empty_prefix_fails_witness :
  exists url',
    create_urls_list toy_handler
      ["s3://bucket/file.bin"; "s3://bucket/nothing/"; "s3://bucket/prefix/"]%string =
    inl (AssertionError ("The directory " ++ url' ++ " does not contain any objects.")).
Proof.
  destruct (create_urls_list_empty_prefix_fails toy_handler
              ["s3://bucket/file.bin"; "s3://bucket/nothing/"; "s3://bucket/prefix/"]%string
              "s3://bucket/nothing/"%string)
    as (url' & _ & _ & _ & Hfail & _).
  - apply list_elem_of_In. simpl. tauto.
  - reflexivity.
  - reflexivity.
  - exists url'. exact Hfail.
Defined.

(** C8: [create_urls_list] goes through the locations in the order
    given; a location that exists contributes itself, any other its
    whole listing in listing order.  When no location is an empty prefix
    the result is the concatenation of these contributions.  So with
    [file.bin] existing and [prefix/] listing [x] then [y], the list
    [file.bin, prefix/] resolves to [file.bin, prefix/x, prefix/y]. *)
Theorem create_urls_list_in_order :
  (forall (handler : S3Init) (urls : list string),
      Forall (fun url => file_exists handler url = true \/ list_files handler url <> []) urls ->
      create_urls_list handler urls = inr (urls ≫= resolve_location handler)) /\
  (forall (handler : S3Init),
      file_exists handler "s3://bucket/file.bin" = true ->
      file_exists handler "s3://bucket/prefix/" = false ->
      list_files handler "s3://bucket/prefix/" =
        ["s3://bucket/prefix/x"; "s3://bucket/prefix/y"]%string ->
      create_urls_list handler ["s3://bucket/file.bin"; "s3://bucket/prefix/"]%string =
      inr ["s3://bucket/file.bin"; "s3://bucket/prefix/x"; "s3://bucket/prefix/y"]%string) /\
  create_urls_list toy_handler ["s3://bucket/file.bin"; "s3://bucket/prefix/"]%string =
    inr ["s3://bucket/file.bin"; "s3://bucket/prefix/x"; "s3://bucket/prefix/y"]%string.
Proof.
  assert (forall (handler : S3Init) (urls : list string),
      Forall (fun url => file_exists handler url = true \/ list_files handler url <> []) urls ->
      create_urls_list handler urls = inr (urls ≫= resolve_location handler)) as Hgen.
  { intros handler urls Hok. unfold create_urls_list.
    rewrite create_urls_list_loop_ok; [done|].
    eapply Forall_impl; [exact Hok|]. intros url [He|Hl] [He' Hl']; congruence. }
  split_and!; [done| |reflexivity].
  intros handler He1 He2 Hl. rewrite Hgen.
  - simpl. unfold resolve_location. by rewrite He1, He2, Hl.
  - constructor; [by left|]. constructor; [right; by rewrite Hl|]. constructor.
Qed.

Lemma create_urls_list_in_order_witness :
  create_urls_list toy_handler ["s3://bucket/file.bin"; "s3://bucket/prefix/"]%string =
  inr ["s3://bucket/file.bin"; "s3://bucket/prefix/x"; "s3://bucket/prefix/y"]%string.
Proof.
  apply (proj1 (proj2 create_urls_list_in_order) toy_handler); reflexivity.
Defined.

(** ** Length *)

(** C9: [len()] of an [S3IterableDataset] is the number of keys that
    resolution produced, the whole un-sharded key list.  It does not
    depend on the distributed context, on shuffling, or on the epoch, and
    takes no worker identity.  It is in general neither the number of
    keys of the shard a pass reads nor the number of records a pass
    yields: for the keys [pack.tar, prefix/x, prefix/y] it is 3, while
    rank 1 of 2 reads one key and yields one record, and an
    undistributed pass yields four records. *)
Theorem len_is_unsharded_key_count :
  (forall handler dist_ctx urls_arg shuffle self,
      S3IterableDataset_init handler dist_ctx urls_arg shuffle = inr self ->
      S3BaseClass_init handler urls_arg = inr (urls_list self) /\
      S3IterableDataset_len self = length (urls_list self)) /\
  (forall handler ctx1 ctx2 urls_arg shuffle1 shuffle2 self1 self2 e1 e2,
      S3IterableDataset_init handler ctx1 urls_arg shuffle1 = inr self1 ->
      S3IterableDataset_init handler ctx2 urls_arg shuffle2 = inr self2 ->
      S3IterableDataset_len (set_epoch self1 e1) =
      S3IterableDataset_len (set_epoch self2 e2)) /\
  (let urls := Urls ["s3://bucket/pack.tar"; "s3://bucket/prefix/"]%string in
   exists self1 self2,
     S3IterableDataset_init toy_handler (Some (2, 1)) urls false = inr self1 /\
     S3IterableDataset_init toy_handler None urls false = inr self2 /\
     S3IterableDataset_len self1 = 3 /\ S3IterableDataset_len self2 = 3 /\
     (exists sh, worker_dist self1 None (shuffled_list self1 0%Z).1 = inr sh /\ length sh = 1) /\
     (exists recs, (S3IterableDataset_iter toy_handler self1 None 0%Z).1 = inr (recs, None) /\
                   length recs = 1) /\
     (exists recs, (S3IterableDataset_iter toy_handler self2 None 0%Z).1 = inr (recs, None) /\
                   length recs = 4)).
Proof.
  split_and!.
  - intros handler dist_ctx arg shuffle self. unfold S3IterableDataset_init.
    destruct (S3BaseClass_init handler arg) as [e|keys]; simpl; [done|].
    by intros [= <-].
  - intros handler ctx1 ctx2 arg s1 s2 self1 self2 e1 e2.
    unfold S3IterableDataset_init.
    destruct (S3BaseClass_init handler arg) as [e|keys]; simpl; [done|].
    by intros [= <-] [= <-].
  - cbv zeta. eexists _, _. split_and!; [reflexivity..| | |].
    + eexists. split; reflexivity.
    + eexists. split; reflexivity.
    + eexists. split; reflexivity.
Qed.

Lemma len_is_unsharded_key_count_witness :
  S3IterableDataset_len
    (mkS3IterableDataset 0 true true 4 2
       ["s3://bucket/file.bin"; "s3://bucket/prefix/x"; "s3://bucket/prefix/y"]%string) = 3.
Proof.
  apply (proj1 len_is_unsharded_key_count toy_handler (Some (4, 2))
           (Urls ["s3://bucket/file.bin"; "s3://bucket/prefix/"]%string) true).
  reflexivity.
Defined.


(** * Further properties of the module *)

(** ** Sharding keeps order and has trivial stages *)

Lemma progression_cons (a s c : nat) :
  (fun j => a + j * s) <$> seq 0 (S c) =
  a :: ((fun j => (a + s) + j * s) <$> seq 0 c).
Proof.
  cbn [seq fmap list_fmap]. f_equal; [lia|].
  rewrite <- fmap_S_seq, <- list_fmap_compose.
  apply list_fmap_ext. intros _ j _. simpl. lia.
Qed.

Lemma gather_progression_sublist {A} (l : list A) (s c a : nat) :
  0 < s ->
  omap (fun i => l !! i) ((fun j => a + j * s) <$> seq 0 c) `sublist_of` drop a l.
Proof.
  intros Hs. revert a. induction c as [|c IH]; intros a.
  - apply sublist_nil_l.
  - rewrite progression_cons. csimpl.
    assert (drop (a + s) l `sublist_of` drop (S a) l) as Hdrop.
    { replace (a + s) with (S a + (s - 1)) by lia.
      rewrite <- drop_drop. apply sublist_drop. }
    destruct (l !! a) as [x|] eqn:Hx.
    + rewrite (drop_S l x a Hx). apply sublist_skip.
      by rewrite (IH (a + s)).
    + rewrite (IH (a + s)), Hdrop.
      replace (S a) with (a + 1) by lia. rewrite <- drop_drop. apply sublist_drop.
Qed.

Lemma py_slice_sublist {A} (start stop step : nat) (l sh : list A) :
  py_slice start stop step l = inr sh -> sh `sublist_of` l.
Proof.
  unfold py_slice. destruct (Nat.eqb_spec step 0) as [?|Hs]; [done|].
  intros [= <-]. unfold slice_indices.
  rewrite gather_progression_sublist by lia. apply sublist_drop.
Qed.

Lemma slice_length_whole (n : nat) : slice_length 0 n 1 = n.
Proof.
  unfold slice_length. destruct n as [|n]; [done|].
  change (0 <? S n) with true. cbv iota. rewrite Nat.div_1_r. lia.
Qed.

Lemma py_slice_whole {A} (l : list A) : py_slice 0 (length l) 1 l = inr l.
Proof.
  unfold py_slice, slice_indices. change (1 =? 0) with false. cbv iota zeta.
  rewrite Nat.min_id, Nat.min_0_l, slice_length_whole. unfold ret. f_equal.
  transitivity (omap (fun i => l !! i) (seq 0 (length l))); [|apply gather_all].
  f_equal. transitivity (id <$> seq 0 (length l)); [|apply list_fmap_id].
  apply list_fmap_ext. intros _ j _. simpl. lia.
Qed.

Lemma worker_dist_sublist_aux {A} (self : S3IterableDataset)
    (worker_info : option WorkerInfo) (urls sh : list A) :
  worker_dist self worker_info urls = inr sh -> sh `sublist_of` urls.
Proof.
  unfold worker_dist.
  destruct (dist self).
  - destruct (py_slice (rank self) (length urls) (world_size self) urls)
      as [e|urls1] eqn:H1; simpl; [done|].
    apply py_slice_sublist in H1.
    destruct worker_info as [wi|]; simpl.
    + intros H2%py_slice_sublist. by rewrite H2.
    + by intros [= <-].
  - simpl. destruct worker_info as [wi|]; simpl.
    + apply py_slice_sublist.
    + by intros [= <-].
Qed.

(** X1: whatever the context, the keys [worker_dist] returns are a
    sub-sequence of the keys it was given: it drops keys, but never
    reorders, repeats or invents one. *)
Theorem worker_dist_sublist {A} (self : S3IterableDataset)
    (worker_info : option WorkerInfo) (urls sh : list A) :
  worker_dist self worker_info urls = inr sh -> sh `sublist_of` urls.
Proof. apply worker_dist_sublist_aux. Qed.

Lemma worker_dist_sublist_witness :
  ["k1"; "k4"]%string `sublist_of` ["k0"; "k1"; "k2"; "k3"; "k4"; "k5"]%string.
Proof.
  apply (worker_dist_sublist (mkS3IterableDataset 0 false true 3 1 [])
           None ["k0"; "k1"; "k2"; "k3"; "k4"; "k5"]%string).
  reflexivity.
Defined.

(** X2: the stages of [worker_dist] that have nothing to split do
    nothing.  Worker 0 of 1 gets what a process outside any worker gets;
    rank 0 of a world of 1 gets what an undistributed process gets; and
    undistributed and outside a worker the key list comes back as it
    is. *)
Theorem worker_dist_trivial_stages {A} (urls : list A) :
  (forall self, worker_dist self (Some (mkWorkerInfo 0 1)) urls =
                worker_dist self None urls) /\
  (forall e s u ws rk worker_info,
      worker_dist (mkS3IterableDataset e s true 1 0 u) worker_info urls =
      worker_dist (mkS3IterableDataset e s false ws rk u) worker_info urls) /\
  (forall e s u ws rk,
      worker_dist (mkS3IterableDataset e s false ws rk u) None urls = inr urls).
Proof.
  split_and!.
  - intros self. unfold worker_dist.
    destruct (if dist self then _ else _) as [e|urls1]; simpl; [done|].
    apply py_slice_whole.
  - intros e s u ws rk worker_info. unfold worker_dist.
    cbn [dist rank world_size]. by rewrite py_slice_whole.
  - done.
Qed.

(** ** tardata: what is yielded, and what the handler decides *)

(** What it takes for a member to give a record. *)
Lemma member_record_Some (skip_meta : option regex) (tarinfo : TarInfo)
    (fname : string) (data : bytes) :
  member_record skip_meta tarinfo = Some (fname, data) <->
  isreg tarinfo = true /\ name tarinfo = Some fname /\
  bare_meta fname = false /\
  (forall r, skip_meta = Some r -> re_match r fname = false) /\
  extractfile_read tarinfo = inr data.
Proof.
  unfold member_record, tardata_member, bare_meta.
  destruct (isreg tarinfo); simpl; [|split; [done|by intros (? & _)]].
  destruct (name tarinfo) as [f|]; [|split; [done|by intros (_ & ? & _)]].
  destruct (negb (str_in "/" f) && startswith f meta_prefix && endswith f meta_suffix)
    eqn:Hbare.
  { split; [done|]. intros (_ & [= <-] & ? & _). congruence. }
  destruct skip_meta as [r|].
  - destruct (re_match r f) eqn:Hre.
    + split; [done|]. intros (_ & [= <-] & _ & Hr & _).
      specialize (Hr r eq_refl). congruence.
    + destruct (extractfile_read tarinfo) as [e|d]; split.
      * done.
      * intros (_ & _ & _ & _ & ?). done.
      * intros [= <- <-]. split_and!; try done. by intros ? [= <-].
      * intros (_ & [= <-] & _ & _ & [= <-]). done.
  - destruct (extractfile_read tarinfo) as [e|d]; split.
    + done.
    + intros (_ & _ & _ & _ & ?). done.
    + intros [= <- <-]. split_and!; done.
    + intros (_ & [= <-] & _ & _ & [= <-]). done.
Qed.

(** Whatever the handler does, the records come from members of the
    stream, in stream order. *)
Lemma tardata_loop_sublist (skip_meta : option regex) (handler : exn -> result bool)
    (stream : tar_stream) :
  (tardata_loop skip_meta handler stream).1
    `sublist_of` omap (member_record skip_meta) (stream_members stream).
Proof.
  induction stream as [|e|tarinfo rest IH]; simpl.
  - done.
  - unfold tardata_outer. by destruct (handler e).
  - unfold member_record at 1.
    destruct (tardata_member skip_meta tarinfo) as [|fname data|e]; simpl.
    + done.
    + by apply sublist_skip.
    + destruct (handler e) as [e'|[|]]; simpl.
      * unfold tardata_outer. destruct (handler e'); apply sublist_nil_l.
      * done.
      * apply sublist_nil_l.
Qed.

(** X3: every record [tardata] yields, under any skip pattern and any
    handler, is the name and full content of a regular member of the
    stream whose name is not a bare [__...__] name and does not match the
    skip pattern; and records are yielded in stream order. *)
Theorem tardata_yields_kept_members `{TarFile} (fileobj : bytes)
    (skip_meta : option regex) (handler : exn -> result bool) :
  (tardata fileobj skip_meta handler).1
    `sublist_of` omap (member_record skip_meta) (stream_members (tarfile_open fileobj)) /\
  (forall fname data,
      (fname, data) ∈ (tardata fileobj skip_meta handler).1 ->
      bare_meta fname = false /\
      (forall r, skip_meta = Some r -> re_match r fname = false) /\
      exists tarinfo,
        tarinfo ∈ stream_members (tarfile_open fileobj) /\
        isreg tarinfo = true /\ name tarinfo = Some fname /\
        extractfile_read tarinfo = inr data).
Proof.
  pose proof (tardata_loop_sublist skip_meta handler (tarfile_open fileobj)) as Hsub.
  split; [done|]. intros fname data Hin.
  eapply elem_of_sublist in Hin; [|exact Hsub].
  apply list_elem_of_omap in Hin as (tarinfo & Hti & Hrec).
  apply member_record_Some in Hrec as (? & ? & ? & ? & ?).
  split_and!; [done..|]. by exists tarinfo.
Qed.

(** Members that raise nothing, or whose exception the handler answers
    with true, are passed over: their records come first and the loop
    goes on with the rest of the stream. *)
Lemma tardata_loop_prefix (skip_meta : option regex) (handler : exn -> result bool)
    (l : list TarInfo) (tail : tar_stream) :
  Forall (fun tarinfo => forall e, tardata_member skip_meta tarinfo = Raises e ->
                                   handler e = inr true) l ->
  tardata_loop skip_meta handler (members_then l tail) =
  (omap (member_record skip_meta) l ++ (tardata_loop skip_meta handler tail).1,
   (tardata_loop skip_meta handler tail).2).
Proof.
  induction 1 as [|tarinfo l Hti _ IH]; simpl.
  - by destruct (tardata_loop _ _ _).
  - unfold member_record at 1.
    destruct (tardata_member skip_meta tarinfo) as [|fname data|e]; simpl.
    + done.
    + by rewrite IH.
    + by rewrite (Hti e eq_refl).
Qed.

(** X4: with a handler that answers true to the exceptions the members
    raise (or when no member raises), [tardata] on a stream that ends
    properly yields the records of exactly the members that pass the
    filters and can be extracted, in order, and ends normally: a bad
    member costs only its own record. *)
Theorem tardata_skips_failed_members `{TarFile} (fileobj : bytes)
    (skip_meta : option regex) (handler : exn -> result bool) (l : list TarInfo) :
  tarfile_open fileobj = members_then l TarEnd ->
  Forall (fun tarinfo => forall e, tardata_member skip_meta tarinfo = Raises e ->
                                   handler e = inr true) l ->
  tardata fileobj skip_meta handler = (omap (member_record skip_meta) l, None).
Proof.
  intros Hopen Hl. unfold tardata. rewrite Hopen, tardata_loop_prefix by done.
  simpl. by rewrite app_nil_r.
Qed.

(** X5: what the handler's answer to a failing member means.  After
    members that raised nothing: on true the loop goes on behind the
    failing member; on false the generator ends normally and the rest of
    the archive is not read; and the default handler [reraise_exception]
    ends the generator with the member's exception.  A stream that
    itself raises ends the generator with that exception under the
    default handler, and normally under a handler that returns. *)
Theorem tardata_handler_policy (skip_meta : option regex) (l1 l2 : list TarInfo)
    (tarinfo : TarInfo) (e : exn) (tail : tar_stream) :
  Forall (fun ti => member_raises skip_meta ti = false) l1 ->
  tardata_member skip_meta tarinfo = Raises e ->
  let before := omap (member_record skip_meta) l1 in
  let stream := members_then (l1 ++ tarinfo :: l2) tail in
  (forall handler, handler e = inr true ->
      tardata_loop skip_meta handler stream =
      (before ++ (tardata_loop skip_meta handler (members_then l2 tail)).1,
       (tardata_loop skip_meta handler (members_then l2 tail)).2)) /\
  (forall handler, handler e = inr false ->
      tardata_loop skip_meta handler stream = (before, None)) /\
  tardata_loop skip_meta reraise_exception stream = (before, Some e) /\
  (forall e', tardata_loop skip_meta reraise_exception (members_then l1 (TarFail e')) =
              (before, Some e')) /\
  (forall handler e' b, handler e' = inr b ->
      tardata_loop skip_meta handler (members_then l1 (TarFail e')) = (before, None)).
Proof.
  intros Hl1 Hti before stream.
  assert (forall handler : exn -> result bool,
            Forall (fun ti => forall e0, tardata_member skip_meta ti = Raises e0 ->
                                         handler e0 = inr true) l1) as Hok.
  { intros handler. eapply Forall_impl; [exact Hl1|].
    intros ti Hr e0 He0. unfold member_raises in Hr. by rewrite He0 in Hr. }
  assert (forall handler tail',
            tardata_loop skip_meta handler (members_then l1 tail') =
            (before ++ (tardata_loop skip_meta handler tail').1,
             (tardata_loop skip_meta handler tail').2)) as Hpre.
  { intros handler tail'. by apply tardata_loop_prefix. }
  assert (stream = members_then l1 (TarMember tarinfo (members_then l2 tail))) as ->.
  { unfold stream. clear. induction l1 as [|ti l1 IH]; simpl; [done|]. by rewrite IH. }
  split_and!.
  - intros handler He. rewrite Hpre. simpl. by rewrite Hti, He.
  - intros handler He. rewrite Hpre. simpl. rewrite Hti, He. simpl.
    by rewrite app_nil_r.
  - rewrite Hpre. simpl. rewrite Hti. simpl. by rewrite app_nil_r.
  - intros e'. rewrite Hpre. simpl. by rewrite app_nil_r.
  - intros handler e' b He'. rewrite Hpre. simpl. unfold tardata_outer.
    rewrite He'. simpl. by rewrite app_nil_r.
Qed.

(** ** zipdata *)

Lemma zipdata_loop_ok (good : list record) (rest : list (string * result bytes)) :
  zipdata_loop ((zip_ok <$> good) ++ rest) = good ++ zipdata_loop rest.
Proof.
  induction good as [|[f d] good IH]; [done|].
  rewrite fmap_cons. cbn [app zip_ok zipdata_loop fst snd]. by rewrite IH.
Qed.

(** X6: [zipdata] never raises.  An archive that cannot be opened
    yields nothing; otherwise the entries are yielded in [namelist]
    order up to the first entry whose [read] fails, and that failure
    silently ends the generator: the entries behind it are not yielded,
    readable or not. *)
Theorem zipdata_stops_at_failed_read `{ZipFile} (fileobj : bytes) :
  (zipdata fileobj).2 = None /\
  (forall e, zipfile_open fileobj = inl e -> zipdata fileobj = ([], None)) /\
  (forall good, zipfile_open fileobj = inr (zip_ok <$> good) ->
                zipdata fileobj = (good, None)) /\
  (forall good file_ e rest,
      zipfile_open fileobj = inr ((zip_ok <$> good) ++ (file_, inl e) :: rest) ->
      zipdata fileobj = (good, None)).
Proof.
  unfold zipdata. split_and!.
  - by destruct (zipfile_open fileobj).
  - by intros e ->.
  - intros good ->. rewrite <- (app_nil_r (zip_ok <$> good)), zipdata_loop_ok.
    simpl. by rewrite app_nil_r.
  - intros good file_ e rest ->. rewrite zipdata_loop_ok. simpl. by rewrite app_nil_r.
Qed.

Lemma tardata_skips_failed_members_witness :
  @tardata broken_tarfile [Byte.x2a] (Some default_skip_meta) (fun _ => inr true) =
  ([("a.txt"%string, [Byte.x2a]); ("c.txt"%string, [Byte.x2a])], None).
Proof.
  apply (@tardata_skips_failed_members broken_tarfile [Byte.x2a]
           (Some default_skip_meta) (fun _ => inr true)
           [good_member "a.txt" [Byte.x2a]; bad_member; good_member "c.txt" [Byte.x2a]]).
  - reflexivity.
  - repeat constructor.
Defined.

Lemma tardata_handler_policy_witness :
  tardata_loop (Some default_skip_meta) reraise_exception
    (members_then ([good_member "a.txt" [Byte.x2a]] ++
                   bad_member :: [good_member "c.txt" [Byte.x2a]]) TarEnd) =
  ([("a.txt"%string, [Byte.x2a])], Some (OtherError "unexpected end of data")).
Proof.
  apply (tardata_handler_policy (Some default_skip_meta)
           [good_member "a.txt" [Byte.x2a]] [good_member "c.txt" [Byte.x2a]]
           bad_member (OtherError "unexpected end of data") TarEnd).
  - repeat constructor.
  - reflexivity.
Defined.

(** ** The record stream of an S3IterableDataset *)

Section stream.
Context `{TarFile} `{ZipFile}.
Variable handler : S3Init.
Implicit Types (urls : list string) (url : string).

Lemma get_stream_cons url urls :
  get_stream handler (url :: urls) =
  match download_data handler url with
  | (ys, Some e) => (ys, Some e)
  | (ys, None) => (ys ++ (get_stream handler urls).1, (get_stream handler urls).2)
  end.
Proof.
  simpl. destruct (download_data handler url) as [ys [e|]]; [done|].
  by destruct (get_stream handler urls).
Qed.

(** Keys whose records end normally are chained. *)
Lemma get_stream_app_normal urls1 urls2 :
  Forall (fun url => (download_data handler url).2 = None) urls1 ->
  get_stream handler (urls1 ++ urls2) =
  ((urls1 ≫= (fun url => (download_data handler url).1)) ++ (get_stream handler urls2).1,
   (get_stream handler urls2).2).
Proof.
  induction 1 as [|url urls1 Hurl _ IH].
  - simpl. by destruct (get_stream handler urls2).
  - rewrite <- app_comm_cons, get_stream_cons, IH.
    rewrite bind_cons.
    destruct (download_data handler url) as [ys r]. simpl in Hurl. subst r.
    simpl. by rewrite app_assoc.
Qed.

Lemma get_stream_normal urls :
  Forall (fun url => (download_data handler url).2 = None) urls ->
  get_stream handler urls = (urls ≫= (fun url => (download_data handler url).1), None).
Proof.
  intros Hok. rewrite <- (app_nil_r urls) at 1.
  rewrite get_stream_app_normal by done. simpl. by rewrite app_nil_r.
Qed.

Lemma download_data_not_archive url :
  is_archive url = false -> download_data handler url = ([plain_record handler url], None).
Proof.
  unfold is_archive, download_data. intros [-> ->]%orb_false_elim. done.
Qed.

Lemma get_stream_plain urls :
  Forall (fun url => is_archive url = false) urls ->
  get_stream handler urls = (plain_record handler <$> urls, None).
Proof.
  intros Hp. rewrite get_stream_normal.
  - f_equal. induction Hp as [|url urls Hurl _ IH]; [done|]. csimpl.
    by rewrite download_data_not_archive, IH.
  - eapply Forall_impl; [exact Hp|]. intros url Hurl.
    by rewrite download_data_not_archive.
Qed.
End stream.

(** X7: the stream of a key list is the records of its keys, key after
    key.  As long as the records of each key end normally they are
    chained in key order; the first key whose records end with an
    exception ends the whole stream with that exception, after its own
    records, and no later key is read. *)
Theorem get_stream_stops_at_first_failure `{TarFile} `{ZipFile} (handler : S3Init)
    (urls1 : list string) :
  Forall (fun url => (download_data handler url).2 = None) urls1 ->
  get_stream handler urls1 =
    (urls1 ≫= (fun url => (download_data handler url).1), None) /\
  (forall url ys e urls2,
      download_data handler url = (ys, Some e) ->
      get_stream handler (urls1 ++ url :: urls2) =
      ((urls1 ≫= (fun url => (download_data handler url).1)) ++ ys, Some e)).
Proof.
  intros Hok. split; [by apply get_stream_normal|].
  intros url ys e urls2 Hurl.
  rewrite get_stream_app_normal, get_stream_cons, Hurl by done. done.
Qed.

Lemma get_stream_stops_at_first_failure_witness :
  @get_stream broken_tarfile toy_zipfile toy_handler
    (["s3://bucket/file.bin"]%string ++ "s3://bucket/pack.tar"%string
       :: ["s3://bucket/prefix/x"]%string) =
  ([("s3://bucket/file.bin"%string, [Byte.x01; Byte.x02; Byte.x03]);
    ("a.txt"%string, [Byte.x01; Byte.x02; Byte.x03])],
   Some (OtherError "unexpected end of data")).
Proof.
  apply (proj2 (@get_stream_stops_at_first_failure broken_tarfile toy_zipfile
                  toy_handler ["s3://bucket/file.bin"]%string
                  ltac:(repeat constructor))
           "s3://bucket/pack.tar"%string
           [("a.txt"%string, [Byte.x01; Byte.x02; Byte.x03])]
           (OtherError "unexpected end of data") ["s3://bucket/prefix/x"]%string).
  reflexivity.
Defined.

(** X8: when none of the keys a pass is assigned is an archive name, the
    pass yields exactly one record per assigned key, in key order, named
    by the key and holding its object, and ends normally. *)
Theorem iter_plain_keys `{TarFile} `{ZipFile} {G} `{PyRandom G} (handler : S3Init)
    (self : S3IterableDataset) (worker_info : option WorkerInfo) (g : G)
    (sh : list string) :
  worker_dist self worker_info (shuffled_list self g).1 = inr sh ->
  Forall (fun url => is_archive url = false) sh ->
  S3IterableDataset_iter handler self worker_info g =
    (inr (plain_record handler <$> sh, None), (shuffled_list self g).2) /\
  (forall recs r, (S3IterableDataset_iter handler self worker_info g).1 = inr (recs, r) ->
                  length recs = length sh /\ recs.*1 = sh).
Proof.
  intros Hsh Hplain. unfold S3IterableDataset_iter.
  destruct (shuffled_list self g) as [l g'] eqn:Hl. simpl in *.
  rewrite Hsh. simpl. rewrite get_stream_plain by done. split; [done|].
  intros recs r [= <- <-]. rewrite length_fmap. split; [done|].
  rewrite <- list_fmap_compose. apply list_fmap_id.
Qed.

Lemma iter_plain_keys_witness :
  S3IterableDataset_iter toy_handler
    (mkS3IterableDataset 0 false true 2 1
       ["s3://bucket/file.bin"; "s3://bucket/prefix/x"; "s3://bucket/prefix/y"]%string)
    None 5%Z =
  (inr ([("s3://bucket/prefix/x"%string, [Byte.x01; Byte.x02; Byte.x03])], None), 5%Z).
Proof.
  apply (iter_plain_keys toy_handler
           (mkS3IterableDataset 0 false true 2 1
              ["s3://bucket/file.bin"; "s3://bucket/prefix/x"; "s3://bucket/prefix/y"]%string)
           None 5%Z ["s3://bucket/prefix/x"]%string).
  - reflexivity.
  - repeat constructor.
Defined.

Lemma list_bind_bind {A B C} (f : A -> list B) (g : B -> list C) (l : list A) :
  (l ≫= f) ≫= g = l ≫= (fun x => f x ≫= g).
Proof. induction l as [|x l IH]; [done|]. csimpl. by rewrite bind_app, IH. Qed.

(** All shards together hold the keys of the list, each as often as the
    list does. *)
Lemma shard_lists_cover {A} (W N : nat) (K : list A) :
  0 < W -> 0 < N ->
  (all_pairs W N ≫= (fun p => shard_list W N p.1 p.2 K)) ≡ₚ K.
Proof.
  intros HW HN.
  transitivity (omap (fun i => K !! i) (seq 0 (length K))); [|by rewrite gather_all].
  rewrite <- (shard_indices_cover W N (length K)) by done. rewrite omap_bind.
  erewrite list_bind_ext; [reflexivity| |done].
  intros [r w]. simpl. unfold shard_list. by rewrite shard_by_indices.
Qed.

(** X9: across all ranks and workers of one pass over the same key
    order, every key is read by exactly one of them: when the records of
    every key end normally, the records of all shards together are the
    records of the whole key list, each as often. *)
Theorem shards_read_every_key_once `{TarFile} `{ZipFile} (handler : S3Init)
    (W N : nat) (K : list string) :
  0 < W -> 0 < N ->
  Forall (fun url => (download_data handler url).2 = None) K ->
  (forall r w, r < W -> w < N ->
     (get_stream handler (shard_list W N r w K)).2 = None) /\
  (all_pairs W N ≫= (fun p => (get_stream handler (shard_list W N p.1 p.2 K)).1))
  ≡ₚ K ≫= (fun url => (download_data handler url).1).
Proof.
  intros HW HN Hok.
  assert (forall r w, Forall (fun url => (download_data handler url).2 = None)
                        (shard_list W N r w K)) as Hsh.
  { intros r w. apply Forall_forall. intros url Hin.
    rewrite Forall_forall in Hok. apply Hok.
    eapply elem_of_sublist; [exact Hin|].
    unfold shard_list. destruct (shard W N r w K) as [e|sh] eqn:Hs.
    - apply sublist_nil_l.
    - by apply worker_dist_sublist_aux in Hs. }
  split.
  - intros r w _ _. by rewrite get_stream_normal.
  - transitivity ((all_pairs W N ≫= (fun p => shard_list W N p.1 p.2 K))
                    ≫= (fun url => (download_data handler url).1));
      [|by rewrite shard_lists_cover].
    rewrite list_bind_bind. erewrite list_bind_ext; [reflexivity| |done].
    intros [r w]. simpl. by rewrite get_stream_normal.
Qed.

Lemma shards_read_every_key_once_witness :
  (all_pairs 2 1 ≫=
     (fun p => (get_stream toy_handler
                  (shard_list 2 1 p.1 p.2
                     ["s3://bucket/file.bin"; "s3://bucket/pack.tar";
                      "s3://bucket/prefix/x"]%string)).1))
  ≡ₚ ["s3://bucket/file.bin"; "s3://bucket/pack.tar"; "s3://bucket/prefix/x"]%string
       ≫= (fun url => (download_data toy_handler url).1).
Proof.
  apply (shards_read_every_key_once toy_handler 2 1
           ["s3://bucket/file.bin"; "s3://bucket/pack.tar"; "s3://bucket/prefix/x"]%string).
  - lia.
  - lia.
  - repeat constructor.
Defined.

(** ** S3Dataset *)





(** ** ShuffleDataset at the edges *)


(** ** The shuffle only looks a buffer ahead *)

Section shuffle_local.
Context {A G : Type} `{PyRandom G}.

Hypothesis randint_range : forall (g : G) (a b : Z),
  (a <= b)%Z -> (a <= (randint g a b).1 <= b)%Z.

Implicit Types (shufbuf src : list A) (g : G).

(** The eviction loop yields once per round, and the [k]-th value it
    yields was in the buffer at the start or among the first [k] items
    pulled since. *)
Lemma evict_loop_local (buffer_size : Z) shufbuf src g :
  buffer_size = Z.of_nat (length shufbuf) -> (0 < buffer_size)%Z ->
  let r := evict_loop buffer_size shufbuf src g in
  length (yielded r) = S (length src) /\
  forall k x, yielded r !! k = Some x -> x ∈ shufbuf ++ take k src.
Proof.
  revert shufbuf g. induction src as [|item src IH]; intros shufbuf g Hlen Hpos;
    destruct (evict_step randint_range shufbuf g buffer_size Hlen Hpos)
      as (i & g' & x0 & l' & Hr & Hp & Hperm & Hl);
    cbv zeta; rewrite evict_loop_eq, (proj2 (Z.eqb_neq buffer_size 0)) by lia;
    rewrite Hr, Hp; cbn [loop_yield yielded length].
  - split; [done|]. intros [|k] x; simpl; [|done].
    intros [= <-]. rewrite app_nil_r, Hperm. by left.
  - destruct (IH (l' ++ [item]) g') as [Hlen' Hloc]; [rewrite length_app; simpl; lia|done|].
    split; [by rewrite Hlen'|]. intros [|k] x; simpl.
    + intros [= <-]. rewrite Hperm. apply elem_of_app. left. by left.
    + intros Hx%Hloc. rewrite Hperm.
      rewrite !elem_of_app, list_elem_of_singleton in Hx.
      rewrite !elem_of_app, !elem_of_cons. tauto.
Qed.

Lemma pass_local (buffer_size : Z) shufbuf src g :
  buffer_size = Z.of_nat (length shufbuf) -> (0 < buffer_size)%Z ->
  let r1 := evict_loop buffer_size shufbuf src g in
  let r2 := drain_loop (length (shufbuf_end r1)) (shufbuf_end r1) (rng_end r1) in
  raised r1 = None /\
  forall k x, (yielded r1 ++ yielded r2) !! k = Some x -> x ∈ shufbuf ++ take k src.
Proof.
  intros Hlen Hpos r1 r2.
  destruct (evict_loop_perm randint_range buffer_size shufbuf src g Hlen Hpos)
    as [Hnone Hperm].
  destruct (evict_loop_local buffer_size shufbuf src g Hlen Hpos) as [Hlen1 Hloc].
  destruct (drain_loop_perm randint_range (shufbuf_end r1) (rng_end r1))
    as (_ & _ & Hy2).
  fold r1 in Hnone, Hperm, Hlen1, Hloc. fold r2 in Hy2.
  split; [done|]. intros k x Hk.
  destruct (decide (k < length (yielded r1))) as [Hlt|Hge].
  - rewrite lookup_app_l in Hk by done. by apply Hloc.
  - rewrite lookup_app_r in Hk by lia. apply list_elem_of_lookup_2 in Hk.
    rewrite take_ge by lia. rewrite <- Hperm. apply elem_of_app. right.
    by rewrite <- Hy2.
Qed.
End shuffle_local.

(** X12: the shuffle is streaming: with [buffer_size > 0], the [k]-th
    value a pass yields (counting from 0) is one of the first
    [buffer_size + k] items of the source.  So an item is never yielded
    more than [buffer_size - 1] places ahead of its place in the
    source. *)
Theorem shuffle_output_is_local {A G} `{PyRandom G} (self : ShuffleDataset A) (g : G)
    (k : nat) (x : A) :
  (forall (g : G) (a b : Z), (a <= b)%Z -> (a <= (randint g a b).1 <= b)%Z) ->
  (0 < buffer_size self)%Z ->
  yielded (ShuffleDataset_iter self g).2 !! k = Some x ->
  x ∈ take (Z.to_nat (buffer_size self) + k) (dataset self).
Proof.
  intros Hrange Hpos. unfold ShuffleDataset_iter. rewrite fill_spec.
  set (n := Z.to_nat (buffer_size self)). set (src := dataset self).
  rewrite app_nil_l. rewrite <- (take_take_drop src n k).
  set (buf := take n src). set (rest := drop n src).
  set (self' := if bool_decide (length src < n)
                then mkShuffleDataset src (Z.of_nat (length buf)) else self).
  assert (buffer_size self' = Z.of_nat (length buf)) as Hbs.
  { unfold self'. case_bool_decide; [done|]. unfold buf, n.
    rewrite length_take. lia. }
  cbv beta iota zeta. fold self'. rewrite Hbs.
  destruct (decide (length buf = 0)) as [Hz|Hnz].
  - rewrite Hz, evict_loop_eq. simpl.
    apply nil_length_inv in Hz. rewrite Hz. by destruct k.
  - destruct (pass_local Hrange (Z.of_nat (length buf)) buf rest g eq_refl)
      as [Hnone Hloc]; [lia|].
    rewrite Hnone. simpl. apply Hloc.
Qed.

Lemma shuffle_output_is_local_witness :
  1 ∈ take (3 + 0) [1; 2; 3; 4; 5; 6; 7].
Proof.
  apply (shuffle_output_is_local (mkShuffleDataset [1; 2; 3; 4; 5; 6; 7] 3) 42%Z 0 1
           lcg_randint_range).
  - simpl. lia.
  - reflexivity.
Defined.

(** ** More on resolving locations *)

Section resolve_more.
Variable handler : S3Init.
Implicit Types (urls acc keys : list string) (url : string).

(** The accumulator only ever grows at its end. *)
Lemma create_urls_list_loop_acc urls acc :
  create_urls_list_loop handler urls acc =
  do keys <~ create_urls_list_loop handler urls []; ret (acc ++ keys).
Proof.
  revert acc. induction urls as [|url urls IH]; intros acc.
  - simpl. by rewrite app_nil_r.
  - destruct (file_exists handler url) eqn:He.
    + rewrite !create_urls_list_loop_exists by done.
      rewrite (IH (acc ++ [url])), (IH ([] ++ [url])).
      destruct (create_urls_list_loop handler urls []); simpl; [done|].
      by rewrite <- app_assoc.
    + destruct (list_files handler url) as [|o os] eqn:Hl.
      * by rewrite !create_urls_list_loop_empty.
      * rewrite !create_urls_list_loop_listing by (done || by rewrite Hl).
        rewrite (IH (acc ++ _)), (IH ([] ++ _)).
        destruct (create_urls_list_loop handler urls []); simpl; [done|].
        by rewrite <- app_assoc.
Qed.

Lemma create_urls_list_cons url urls :
  create_urls_list handler (url :: urls) =
  do keys1 <~ create_urls_list handler [url];
  do keys2 <~ create_urls_list handler urls;
  ret (keys1 ++ keys2).
Proof.
  unfold create_urls_list.
  destruct (file_exists handler url) eqn:He.
  - rewrite !create_urls_list_loop_exists by done. simpl.
    by rewrite create_urls_list_loop_acc.
  - destruct (list_files handler url) as [|o os] eqn:Hl.
    + by rewrite !create_urls_list_loop_empty.
    + rewrite !create_urls_list_loop_listing by (done || by rewrite Hl). simpl.
      rewrite create_urls_list_loop_acc, Hl. simpl.
      by destruct (create_urls_list_loop handler urls []).
Qed.

Lemma create_urls_list_ok_inv urls keys :
  create_urls_list handler urls = inr keys ->
  Forall (fun url => resolve_location handler url <> []) urls /\
  keys = urls ≫= resolve_location handler.
Proof.
  revert keys. induction urls as [|url urls IH]; intros keys.
  - intros [= <-]. by split.
  - rewrite create_urls_list_cons.
    destruct (create_urls_list handler [url]) as [e|keys1] eqn:H1; simpl; [done|].
    destruct (create_urls_list handler urls) as [e|keys2] eqn:H2; simpl; [done|].
    intros [= <-]. destruct (IH keys2 eq_refl) as [Hall ->].
    unfold create_urls_list in H1. unfold resolve_location at 1 3.
    destruct (file_exists handler url) eqn:He.
    + rewrite create_urls_list_loop_exists in H1 by done. simpl in H1.
      injection H1 as <-. split; [|done]. constructor; [|done].
      unfold resolve_location. by rewrite He.
    + destruct (list_files handler url) as [|o os] eqn:Hl.
      * by rewrite create_urls_list_loop_empty in H1.
      * rewrite create_urls_list_loop_listing in H1 by (done || by rewrite Hl).
        simpl in H1. injection H1 as <-. rewrite Hl. split; [|done].
        constructor; [|done]. unfold resolve_location. by rewrite He, Hl.
Qed.
End resolve_more.

(** X13: resolution is done location by location: the keys of
    [l1 ++ l2] are the keys of [l1] followed by the keys of [l2], and
    resolving the whole list fails exactly when resolving [l1] fails (with
    that error) or else resolving [l2] does. *)
Theorem create_urls_list_app (handler : S3Init) (urls1 urls2 : list string) :
  create_urls_list handler (urls1 ++ urls2) =
  do keys1 <~ create_urls_list handler urls1;
  do keys2 <~ create_urls_list handler urls2;
  ret (keys1 ++ keys2).
Proof.
  induction urls1 as [|url urls1 IH].
  - simpl. unfold create_urls_list. simpl.
    by destruct (create_urls_list_loop handler urls2 []).
  - rewrite <- app_comm_cons.
    rewrite (create_urls_list_cons handler url (urls1 ++ urls2)).
    rewrite (create_urls_list_cons handler url urls1), IH.
    destruct (create_urls_list handler [url]) as [e|k0]; simpl; [done|].
    destruct (create_urls_list handler urls1) as [e|k1]; simpl; [done|].
    destruct (create_urls_list handler urls2) as [e|k2]; simpl; [done|].
    by rewrite app_assoc.
Qed.

(** X14: when resolution succeeds, every location contributed at least
    one key: the key list is the in-order concatenation of the
    locations' resolutions, none of them empty, so it has at least as
    many keys as there were locations, and it is empty only for an empty
    list of locations, which resolves to no keys without any error. *)
Theorem create_urls_list_success (handler : S3Init) (urls keys : list string) :
  create_urls_list handler urls = inr keys ->
  keys = urls ≫= resolve_location handler /\
  Forall (fun url => resolve_location handler url <> []) urls /\
  length urls <= length keys /\
  (keys = [] <-> urls = []).
Proof.
  intros [Hall ->]%create_urls_list_ok_inv.
  assert (length urls <= length (urls ≫= resolve_location handler)) as Hlen.
  { induction Hall as [|url urls Hurl _ IH]; [done|]. csimpl.
    rewrite length_app. destruct (resolve_location handler url); [done|]. simpl. lia. }
  split_and!; [done..|]. split.
  - intros Hnil. rewrite Hnil in Hlen. simpl in Hlen.
    by apply nil_length_inv, Nat.le_0_r.
  - by intros ->.
Qed.

Lemma create_urls_list_success_witness :
  length ["s3://bucket/file.bin"; "s3://bucket/prefix/"]%string <=
  length ["s3://bucket/file.bin"; "s3://bucket/prefix/x"; "s3://bucket/prefix/y"]%string.
Proof.
  apply (create_urls_list_success toy_handler
           ["s3://bucket/file.bin"; "s3://bucket/prefix/"]%string
           ["s3://bucket/file.bin"; "s3://bucket/prefix/x"; "s3://bucket/prefix/y"]%string).
  reflexivity.
Defined.

(** ** The default skip pattern *)

Lemma rmatch_star_notlit (c : ascii) (s : list ascii) (k : list ascii -> bool) :
  rmatch (Star (NotLit c)) s k = star_class c k s.
Proof.
  cbn [rmatch].
  match goal with |- ?f (length s) s = _ => set (star := f) end.
  assert (forall fuel t, length t <= fuel -> star fuel t = star_class c k t) as Hgen.
  { induction fuel as [|fuel IH]; intros t Hlen.
    - destruct t; [done|simpl in Hlen; lia].
    - destruct t as [|a t]; [done|]. simpl in Hlen.
      cbn [star star_class]. f_equal. f_equal.
      rewrite (proj2 (Nat.ltb_lt (length t) (length (a :: t)))) by (simpl; lia).
      simpl. apply IH. lia. }
  by apply Hgen.
Qed.

Lemma star_class_spec (c : ascii) (k : list ascii -> bool) (s : list ascii) :
  star_class c k s = true <->
  exists m rest, s = m ++ rest /\ Forall (fun a => a <> c) m /\ k rest = true.
Proof.
  induction s as [|a s IH]; cbn [star_class].
  - rewrite orb_false_r. split.
    + intros Hk. by exists [], [].
    + intros (m & rest & Heq & _ & Hk). symmetry in Heq.
      apply app_eq_nil in Heq as [-> ->]. done.
  - rewrite orb_true_iff, andb_true_iff, negb_true_iff, IH. split.
    + intros [Hk|[Hne (m & rest & -> & Hm & Hk)]].
      * by exists [], (a :: s).
      * exists (a :: m), rest. split_and!; [done| |done].
        constructor; [|done]. intros ->. by rewrite Ascii.eqb_refl in Hne.
    + intros (m & rest & Heq & Hm & Hk). destruct m as [|a' m].
      * left. simpl in Heq. by rewrite Heq.
      * right. injection Heq as -> ->. apply Forall_cons in Hm as [Hne Hm]. split.
        -- by apply Ascii.eqb_neq.
        -- by exists m, rest.
Qed.

(** What may follow the closing [__]: the end of the name, a newline
    that ends the name, or a slash. *)
Lemma skip_meta_tail_spec (u : list ascii) :
  rmatch (Cat (Lit "_") (Cat (Lit "_") (Alt Dollar (Lit "/")))) u (fun _ => true) = true <->
  exists rest, u = "_"%char :: "_"%char :: rest /\
    (rest = [] \/ rest = ["010"%char] \/ exists t, rest = "/"%char :: t).
Proof.
  destruct u as [|b1 [|b2 v]]; cbn [rmatch].
  - split; [done|]. by intros (? & ? & _).
  - rewrite andb_false_r. split; [done|]. by intros (? & ? & _).
  - rewrite !andb_true_iff, orb_true_iff, !Ascii.eqb_eq. split.
    + intros (-> & -> & Hv). exists v. split; [done|].
      destruct Hv as [Hv|Hv].
      * destruct v as [|a [|??]]; [by left| |done].
        apply andb_true_iff in Hv as [->%Ascii.eqb_eq _]. right. by left.
      * destruct v as [|a v]; [done|].
        apply andb_true_iff in Hv as [->%Ascii.eqb_eq _]. right. right. by exists v.
    + intros (rest & [= -> -> ->] & Hrest). split_and!; [done..|].
      destruct Hrest as [->|[->|[t ->]]]; [by left|by left|by right].
Qed.

(** X15: the default skip pattern [__[^/]*__($|/)] matches a member
    name exactly when the name starts with [__], goes on without a slash
    to a second [__], and there ends, or ends with one newline, or goes on
    with a slash: the names whose first path segment is bracketed by the
    meta markers.  In particular a name that does not start with [__] is
    never skipped by the pattern. *)
Theorem default_skip_meta_spec (fname : string) :
  re_match default_skip_meta fname = true <->
  exists m rest,
    list_ascii_of_string fname = "_"%char :: "_"%char :: m ++ "_"%char :: "_"%char :: rest /\
    Forall (fun a => a <> "/"%char) m /\
    (rest = [] \/ rest = ["010"%char] \/ exists t, rest = "/"%char :: t).
Proof.
  unfold re_match, default_skip_meta.
  set (tail := Cat (Lit "_") (Cat (Lit "_") (Alt Dollar (Lit "/")))).
  destruct (list_ascii_of_string fname) as [|a1 [|a2 s]].
  - split; [done|]. by intros (? & ? & ? & _).
  - cbn [rmatch]. rewrite andb_false_r. split; [done|]. by intros (? & ? & ? & _).
  - change (rmatch (Cat (Lit "_") (Cat (Lit "_") (Cat (Star (NotLit "/")) tail)))
              (a1 :: a2 :: s) (fun _ => true))
      with (Ascii.eqb a1 "_" && (Ascii.eqb a2 "_" &&
              rmatch (Star (NotLit "/")) s (fun s' => rmatch tail s' (fun _ => true)))).
    rewrite rmatch_star_notlit, !andb_true_iff, !Ascii.eqb_eq, star_class_spec. split.
    + intros (-> & -> & m & u & -> & Hm & (rest & -> & Hrest)%skip_meta_tail_spec).
      by exists m, rest.
    + intros (m & rest & [= -> -> ->] & Hm & Hrest). split_and!; [done..|].
      exists m, ("_"%char :: "_"%char :: rest). split_and!; [done..|].
      apply skip_meta_tail_spec. by exists rest.
Qed.

(** ** Archive names, and how archives fail *)

Lemma last3_eqb_endswith (filename t : string) :
  String.length t = 3 ->
  String.eqb (last3 filename) t = endswith filename t.
Proof.
  intros Ht. unfold endswith, last3. rewrite Ht.
  destruct (Nat.leb_spec 3 (String.length filename)) as [Hle|Hlt]; [done|].
  simpl. apply String.eqb_neq. intros Heq.
  apply (f_equal String.length) in Heq. rewrite Ht in Heq.
  replace (String.length filename - 3) with 0 in Heq by lia.
  destruct filename as [|a [|b [|c f]]]; simpl in Heq, Hlt; lia.
Qed.

(** X16: [download_data] takes a name for a tar archive exactly when
    [name.endswith("tar")] and, failing that, for a zip archive exactly
    when [name.endswith("zip")]; a name of fewer than three characters
    is never an archive and gives its one record. *)
Theorem download_data_archive_by_endswith `{TarFile} `{ZipFile} (handler : S3Init)
    (filename : string) :
  download_data handler filename =
    (if endswith filename "tar"
     then tardata (s3_read handler filename) (Some default_skip_meta) reraise_exception
     else if endswith filename "zip"
          then zipdata (s3_read handler filename)
          else ([(filename, s3_read handler filename)], None)) /\
  is_archive filename = endswith filename "tar" || endswith filename "zip" /\
  (String.length filename < 3 ->
   download_data handler filename = ([(filename, s3_read handler filename)], None)).
Proof.
  unfold download_data, is_archive.
  rewrite !last3_eqb_endswith by done. split_and!; [done..|].
  intros Hlt. unfold endswith. simpl String.length.
  by rewrite (proj2 (Nat.leb_gt 3 (String.length filename))) by lia.
Qed.

(** X17: the two archive kinds fail differently.  A zip key never ends
    the stream with an exception: an archive that cannot be opened
    gives no records and the stream goes on with the next key.  A tar
    key whose archive cannot be read ends its records, and with them
    the whole stream, with the exception of the tar reader. *)
Theorem archive_failure_asymmetry `{TarFile} `{ZipFile} (handler : S3Init)
    (filename : string) (urls : list string) :
  (last3 filename = "zip"%string ->
   (download_data handler filename).2 = None /\
   (forall e, zipfile_open (s3_read handler filename) = inl e ->
              get_stream handler (filename :: urls) = get_stream handler urls)) /\
  (last3 filename = "tar"%string ->
   forall e, tarfile_open (s3_read handler filename) = TarFail e ->
             download_data handler filename = ([], Some e) /\
             get_stream handler (filename :: urls) = ([], Some e)).
Proof.
  split.
  - intros Hz. rewrite get_stream_cons, download_data_zip by done.
    unfold zipdata. split.
    + by destruct (zipfile_open _).
    + intros e ->. simpl. by destruct (get_stream handler urls).
  - intros Ht e Hopen. rewrite get_stream_cons, download_data_tar by done.
    unfold tardata. by rewrite Hopen.
Qed.
